(** * Sandglass: consumer-group engine, produce path and storage wrappers

    A shallow embedding of the broker's consumer-group engine
    (registration, recovery scan, dispatcher, redelivery test), of the
    produce path, and of the merge and delete wrappers of the two storage
    back ends, followed by the properties established about them. *)

From Stdlib Require Import ZArith Lia Strings.Byte.
From stdpp Require Import gmap strings list fin_maps sorting.

Local Open Scope Z_scope.

(** ** Machine integers and byte strings *)

(** Go's [uint32]: arithmetic wraps modulo 2^32. *)
Definition wrap_uint32 (z : Z) : Z := z mod 2 ^ 32.

(** Go's [int64] (and [int] on 64-bit targets, and [time.Duration]):
    two's complement, arithmetic wraps modulo 2^64. *)
Definition wrap_int64 (z : Z) : Z := (z + 2 ^ 63) mod 2 ^ 64 - 2 ^ 63.

Definition max_int64 : Z := 2 ^ 63 - 1.
Definition max_uint32 : Z := 2 ^ 32 - 1.

(** Go's [a % b] on signed integers truncates toward zero. *)
Definition go_rem (a b : Z) : Z := Z.rem a b.

(** [[]byte]. A nil slice and an empty slice are both the empty list. *)
Definition bytes : Type := list Byte.byte.

#[global] Instance byte_eq_dec : EqDecision Byte.byte := Byte.byte_eq_dec.
#[global] Instance byte_countable : Countable Byte.byte :=
  inj_countable Byte.to_N Byte.of_N Byte.of_to_N.

(** ** Package [time] *)

Module time.
(** An instant, counted in nanoseconds. [time.Time] keeps 64-bit seconds
    and a nanosecond field, far beyond any instant a broker sees, so the
    count is left unbounded here. *)
Definition Time : Type := Z.

(** [time.Duration] is an [int64] count of nanoseconds. *)
Definition Duration : Type := Z.

Definition Second : Duration := 1000000000.

Definition Add (t : Time) (d : Duration) : Time := t + d.
Definition Before (t u : Time) : bool := t <? u.
End time.

(** ** Package [sgproto]: wire types *)

Module sgproto.

(** Modelled from the spec: the offset type (a 16-byte sandflake
    identifier) is declared outside the sources at hand. The spec makes
    it an opaque, totally ordered value compared bytewise; a natural
    number read big-endian has the same equality and order. *)
Definition Offset : Type := N.

Definition Offset_Equal (a b : Offset) : bool := N.eqb a b.

(** Modelled from the spec: the generated enum [MarkKind] is absent from
    the sources at hand. It is a protobuf enum, so besides the five named
    kinds a decoded record may carry any other number; the zero value is
    [Unknown]. *)
Inductive MarkKind : Type :=
| MarkKind_Unknown
| MarkKind_NotAcknowledged
| MarkKind_Consumed
| MarkKind_Acknowledged
| MarkKind_Commited
| MarkKind_unrecognized (code : Z).

#[global] Instance MarkKind_eq_dec : EqDecision MarkKind.
Proof. solve_decision. Defined.

(** [DeliveryCount] is a [uint32]. *)
Record MarkState : Type := mkMarkState {
  Kind : MarkKind;
  DeliveryCount : Z
}.

#[global] Instance MarkState_eq_dec : EqDecision MarkState.
Proof. solve_decision. Defined.

(** The zero value of [MarkState]. *)
Definition MarkState_zero : MarkState := mkMarkState MarkKind_Unknown 0.

Record Message : Type := mkMessage {
  Offset_ : Offset;
  Key : bytes;
  Value : bytes;
  ClusteringKey : bytes;
  Channel : string;
  ProducedAt : time.Time
}.

#[global] Instance Message_eq_dec : EqDecision Message.
Proof. solve_decision. Defined.

Definition set_Offset (o : Offset) (m : Message) : Message :=
  mkMessage o (Key m) (Value m) (ClusteringKey m) (Channel m) (ProducedAt m).
Definition set_Value (v : bytes) (m : Message) : Message :=
  mkMessage (Offset_ m) (Key m) v (ClusteringKey m) (Channel m) (ProducedAt m).
Definition set_ClusteringKey (ck : bytes) (m : Message) : Message :=
  mkMessage (Offset_ m) (Key m) (Value m) ck (Channel m) (ProducedAt m).
Definition set_Channel (ch : string) (m : Message) : Message :=
  mkMessage (Offset_ m) (Key m) (Value m) (ClusteringKey m) ch (ProducedAt m).

Record ProduceMessageRequest : Type := mkProduceMessageRequest {
  pr_Topic : string;
  pr_Partition : string;
  pr_Messages : list Message
}.

Record ProduceResponse : Type := mkProduceResponse {
  Offsets : list Offset
}.

Record MarkRequest : Type := mkMarkRequest {
  mr_Topic : string;
  mr_Partition : string;
  mr_Channel : string;
  mr_ConsumerGroup : string;
  mr_Offsets : list Offset;
  mr_State : option MarkState
}.

Record GetMarkRequest : Type := mkGetMarkRequest {
  gm_Topic : string;
  gm_Partition : string;
  gm_Channel : string;
  gm_ConsumerGroup : string;
  gm_Offset : Offset
}.

End sgproto.

Import sgproto.

(** ** Package [storage] and its two back ends *)

Module storage.

(** [MergeFunc]: [(existing, value) -> (newValue, ok)]. *)
Record MergeOperator : Type := mkMergeOperator {
  mo_Key : bytes;
  MergeFunc : bytes -> bytes -> bytes * bool
}.

Record Entry : Type := mkEntry {
  e_Key : bytes;
  e_Value : bytes
}.

(** Keys are iterated in the order of [bytes.Compare]: bytewise
    lexicographic, a proper prefix before its extensions. *)
Fixpoint key_leb (a b : bytes) : bool :=
  match a, b with
  | [], _ => true
  | _ :: _, [] => false
  | x :: a', y :: b' =>
      if (Byte.to_N x <? Byte.to_N y)%N then true
      else if (Byte.to_N x =? Byte.to_N y)%N then key_leb a' b'
      else false
  end.

(** [bytes.HasPrefix]. *)
Fixpoint hasPrefix (key prefix : bytes) : bool :=
  match prefix, key with
  | [], _ => true
  | _ :: _, [] => false
  | p :: prefix', k :: key' => if decide (p = k) then hasPrefix key' prefix' else false
  end.

Definition key_le (a b : bytes) : Prop := key_leb a b = true.

#[global] Instance key_le_dec : RelDecision key_le.
Proof. intros a b. unfold key_le. apply _. Defined.

(** The keys of a table in iteration order. *)
Definition sortedKeys {A : Type} (t : gmap bytes A) : list bytes :=
  merge_sort key_le (fst <$> map_to_list t).

(** [it.Seek(min)]: the iterator stands at the first key not below [min];
    what is left to iterate is the result. *)
Fixpoint seek (min : bytes) (keys : list bytes) : list bytes :=
  match keys with
  | [] => []
  | k :: rest => if key_leb min k then k :: rest else seek min rest
  end.

(** The loop
    [for it.Seek(min); it.ValidForPrefix(prefix) && len(buf) < batchSize; it.Next()]
    of both back ends' [Truncate], from the position after the seek:
    the keys it appends to [buf], [room] being what [batchSize] still
    allows. *)
Fixpoint collect (prefix : bytes) (room : nat) (cursor : list bytes) : list bytes :=
  match cursor with
  | [] => []
  | k :: rest =>
      if hasPrefix k prefix then
        match room with
        | O => []
        | S room' => k :: collect prefix room' rest
        end
      else []
  end.

(** How a call ends: it returns, it panics, the runtime ends the process,
    or the model's step budget runs out first. *)
Inductive Run (A : Type) : Type :=
| Ret (a : A)
| GoPanic (why : string)
| GoFatal (why : string)
| NoFuel.

Arguments Ret {A} a.
Arguments GoPanic {A} why.
Arguments GoFatal {A} why.
Arguments NoFuel {A}.

(** The most bytes one allocation may ask for on a 64-bit target. *)
Definition maxAlloc : Z := 2 ^ 48.

(** The size of a slice header, the element type of [[][]byte]. *)
Definition sliceHeaderSize : Z := 24.

(** [make([]T, 0, cap)] for elements of [elemSize] bytes: a capacity that
    is negative or asks for more than [maxAlloc] bytes panics; one the
    runtime cannot find the memory for ends the process. [avail] is the
    number of bytes the runtime can still obtain. *)
Definition makeslice (avail : N) (elemSize cap : Z) : Run unit :=
  if (cap <? 0) || (maxAlloc <? elemSize * cap)
  then GoPanic "makeslice: cap out of range"
  else if Z.of_N avail <? elemSize * cap
  then GoFatal "runtime: out of memory"
  else Ret tt.

End storage.

(** The part of the badger library the back end drives: a store changes
    only when a read-write transaction is committed; a transaction
    collects its writes, and discarding it drops them. *)
Module badgerlib.

Inductive error : Type :=
| ErrKeyNotFound
| ErrEmptyKey
| ErrReadOnlyTxn
| ErrDiscardedTxn
| ErrTxnTooBig
| ErrKeyTooLong
| ErrValueTooLarge.

(** A write: [Some v] for a set, [None] for a delete. *)
Definition Write : Type := (bytes * option bytes)%type.

(** Beyond the checks spelled out in [modify], the library refuses a
    write whose key is longer than its key limit, whose value is larger
    than a value-log file, or that takes the transaction over its budget
    of entries or bytes. Which bounds apply is a matter of the library's
    version and of the options the store was opened with: [Limits] is the
    verdict, given the writes the transaction took so far and the new
    one. *)
Definition Limits : Type := list Write -> Write -> option error.

Record DB : Type := mkDB {
  table : gmap bytes bytes;
  limits : Limits
}.

Record Txn : Type := mkTxn {
  snapshot : gmap bytes bytes;
  pending : gmap bytes (option bytes);
  writes : list Write;
  txn_limits : Limits;
  update : bool;
  discarded : bool
}.

Definition NewTransaction (db : DB) (upd : bool) : Txn :=
  mkTxn (table db) ∅ [] (limits db) upd false.

(** [Txn.Set] and [Txn.Delete]. *)
Definition modify (txn : Txn) (key : bytes) (w : option bytes) : Txn * option error :=
  if negb (update txn) then (txn, Some ErrReadOnlyTxn)
  else if discarded txn then (txn, Some ErrDiscardedTxn)
  else if decide (key = []) then (txn, Some ErrEmptyKey)
  else
    match txn_limits txn (writes txn) (key, w) with
    | Some err => (txn, Some err)
    | None =>
        (mkTxn (snapshot txn) (<[key := w]> (pending txn)) (writes txn ++ [(key, w)])
           (txn_limits txn) (update txn) (discarded txn), None)
    end.

Definition Txn_Set (txn : Txn) (key val : bytes) : Txn * option error :=
  modify txn key (Some val).

Definition Txn_Delete (txn : Txn) (key : bytes) : Txn * option error :=
  modify txn key None.

(** [Txn.Get] followed by [item.Value()]: an empty key is refused before
    anything is looked up; a write pending in the transaction is seen
    before the snapshot. *)
Definition Txn_Get (txn : Txn) (key : bytes) : bytes + error :=
  if decide (key = []) then inr ErrEmptyKey
  else if discarded txn then inr ErrDiscardedTxn
  else
    match pending txn !! key with
    | Some (Some v) => inl v
    | Some None => inr ErrKeyNotFound
    | None =>
        match snapshot txn !! key with
        | Some v => inl v
        | None => inr ErrKeyNotFound
        end
    end.

(** A pending write overrides the stored value of its key. *)
Definition apply_write (w : option (option bytes)) (stored : option bytes)
  : option bytes :=
  match w with
  | Some (Some v) => Some v
  | Some None => None
  | None => stored
  end.

(** Committing publishes the pending writes to the store. *)
Definition Txn_Commit (txn : Txn) (db : DB) : DB * option error :=
  if discarded txn then (db, Some ErrDiscardedTxn)
  else (mkDB (merge apply_write (pending txn) (table db)) (limits db), None).

(** Discarding touches the transaction only. *)
Definition Txn_Discard (txn : Txn) (db : DB) : Txn * DB :=
  (mkTxn (snapshot txn) (pending txn) (writes txn) (txn_limits txn) (update txn) true,
   db).

(** The merge operator the library hands out for a key. Every operand
    given to [Add] is kept as a version of the key, above the value the
    key held before. Reading the merged value walks the versions from the
    newest to the oldest: the newest is the value to start from, and each
    older version is merged in by the registered function, called with
    the value so far as its first argument and the older version as its
    second. *)
Definition iterateAndMerge (f : bytes -> bytes -> bytes) (versions : list bytes)
  : bytes + error :=
  match versions with
  | [] => inr ErrKeyNotFound
  | newest :: older => inl (foldl f newest older)
  end.

End badgerlib.

Module badger.

Import storage badgerlib.

(** The closure [NewStorage] registers for one operator. *)
Definition mergeFn (operator : MergeOperator) (existing value : bytes) : bytes :=
  let '(newValue, ok) := MergeFunc operator existing value in
  if negb ok then existing else newValue.

(** What the library's merge operator makes of a stored value and the
    operands added since, [operands] in the order they were added: the
    versions of the key are the operands, the last added first, and then
    the stored value. *)
Definition merged (operator : MergeOperator) (existing : bytes) (operands : list bytes)
  : bytes :=
  match iterateAndMerge (mergeFn operator) (reverse operands ++ [existing]) with
  | inl val => val
  | inr _ => existing
  end.

(** [Storage.Get]: a key that is not found reads as nil, without error. *)
Definition Get (db : DB) (key : bytes) : bytes * option error :=
  let txn := NewTransaction db false in
  match Txn_Get txn key with
  | inl v => (v, None)
  | inr ErrKeyNotFound => ([], None)
  | inr e => ([], Some e)
  end.

Fixpoint setAll (txn : Txn) (entries : list Entry) : Txn * option error :=
  match entries with
  | [] => (txn, None)
  | e :: rest =>
      match Txn_Set txn (e_Key e) (e_Value e) with
      | (txn', None) => setAll txn' rest
      | (txn', Some err) => (txn', Some err)
      end
  end.

(** [Storage.BatchPut], through [db.Update]: the transaction is committed
    when the function returns no error and discarded otherwise. *)
Definition BatchPut (db : DB) (entries : list Entry) : DB * option error :=
  let txn := NewTransaction db true in
  match setAll txn entries with
  | (txn', None) => Txn_Commit txn' db
  | (txn', Some err) => (snd (Txn_Discard txn' db), Some err)
  end.

Definition Put (db : DB) (key val : bytes) : DB * option error :=
  BatchPut db [mkEntry key val].

(** [Storage.Delete]: the deferred [txn.Discard()] runs on return. *)
Definition Delete (db : DB) (key : bytes) : DB * option error :=
  let txn := NewTransaction db true in
  let '(txn, err) := Txn_Delete txn key in
  let '(_, db) := Txn_Discard txn db in
  (db, err).

Fixpoint deleteAll (txn : Txn) (keys : list bytes) : Txn * option error :=
  match keys with
  | [] => (txn, None)
  | key :: rest =>
      match Txn_Delete txn key with
      | (txn', None) => deleteAll txn' rest
      | (txn', Some err) => (txn', Some err)
      end
  end.

(** [Storage.BatchDelete]. *)
Definition BatchDelete (db : DB) (keys : list bytes) : DB * option error :=
  let txn := NewTransaction db true in
  let '(txn, err) := deleteAll txn keys in
  let '(_, db) := Txn_Discard txn db in
  (db, err).

(** [Storage.ProcessMergedKey]. The error [fn] returns is assigned and
    never read. *)
Definition ProcessMergedKey (db : DB) (key : bytes)
    (fn : bytes -> list Entry * bytes * option string) : DB * option error :=
  let txn := NewTransaction db true in
  match Txn_Get txn key with
  | inr err => (snd (Txn_Discard txn db), Some err)
  | inl val =>
      let '(entries, operation, _) := fn val in
      match setAll txn entries with
      | (txn, Some err) => (snd (Txn_Discard txn db), Some err)
      | (txn, None) =>
          match Txn_Set txn key operation with
          | (txn, Some err) => (snd (Txn_Discard txn db), Some err)
          | (txn, None) => Txn_Commit txn db
          end
      end
  end.

(** The closure [truncate] of [Storage.Truncate]: one batch. The result
    is the store afterwards, the flag and the error. [batchSize] is an
    [int]; a panic in [make] leaves through the deferred [txn.Discard()].
    The iterator is read as the library keeps it, key by key in order; it
    is never closed, which library versions that look for open iterators
    when a transaction is discarded do not accept: those are not
    covered. *)
Definition truncate (avail : N) (db : DB) (prefix min : bytes) (batchSize : Z)
  : Run (DB * bool * option error) :=
  let txn := NewTransaction db true in
  match makeslice avail sliceHeaderSize batchSize with
  | GoPanic why => GoPanic why
  | GoFatal why => GoFatal why
  | NoFuel => NoFuel
  | Ret _ =>
      let buf :=
        collect prefix (Z.to_nat batchSize) (seek min (sortedKeys (snapshot txn))) in
      if decide (length buf = 0%nat) then Ret (snd (Txn_Discard txn db), false, None)
      else
        match deleteAll txn buf with
        | (txn, Some err) => Ret (snd (Txn_Discard txn db), false, Some err)
        | (txn, None) =>
            match Txn_Commit txn db with
            | (db, Some err) => Ret (db, false, Some err)
            | (db, None) => Ret (db, true, None)
            end
        end
  end.

(** [ok, err := truncate(); for ; ok; ok, err = truncate() {}]. *)
Fixpoint truncateLoop (fuel : nat) (avail : N) (db : DB) (prefix min : bytes)
    (batchSize : Z) : Run (DB * option error) :=
  match fuel with
  | O => NoFuel
  | S fuel' =>
      match truncate avail db prefix min batchSize with
      | Ret (db', true, _) => truncateLoop fuel' avail db' prefix min batchSize
      | Ret (db', false, err) => Ret (db', err)
      | GoPanic why => GoPanic why
      | GoFatal why => GoFatal why
      | NoFuel => NoFuel
      end
  end.

(** [Storage.Truncate]. Every batch that reports [ok] has removed a key,
    so one step more than there are keys is budget enough. *)
Definition Truncate (avail : N) (db : DB) (prefix min : bytes) (batchSize : Z)
  : Run (DB * option error) :=
  truncateLoop (S (size (table db))) avail db prefix min batchSize.

End badger.

(** The part of the rocksdb library the back end drives. [V] stands for
    what the store keeps under a key, a value or a value with the merge
    operands added since: deleting and iterating do not look at it. A
    call that returns a status can fail; [faults] holds what the coming
    calls answer, [None] (and nothing left) for success. A write batch is
    applied as a whole or not at all. *)
Module rocksdblib.

Inductive error : Type :=
| Status (msg : string).

Record DB (V : Type) : Type := mkDB {
  table : gmap bytes V;
  faults : list (option error)
}.

Arguments mkDB {V} table faults.
Arguments table {V} d.
Arguments faults {V} d.

(** The status of the next call, and the store with that answer used
    up. *)
Definition answer {V : Type} (db : DB V) : option error * DB V :=
  match faults db with
  | [] => (None, db)
  | f :: rest => (f, mkDB (table db) rest)
  end.

(** [db.Delete]. *)
Definition DB_Delete {V : Type} (db : DB V) (key : bytes) : DB V * option error :=
  match answer db with
  | (Some err, db) => (db, Some err)
  | (None, db) => (mkDB (delete key (table db)) (faults db), None)
  end.

(** [db.Write] of a batch of deletions, [batch] being the keys in the
    order of the [batch.Delete] calls. *)
Definition DB_Write {V : Type} (db : DB V) (batch : list bytes) : DB V * option error :=
  match answer db with
  | (Some err, db) => (db, Some err)
  | (None, db) =>
      (mkDB (foldl (fun t key => delete key t) (table db) batch) (faults db), None)
  end.

End rocksdblib.

Module rocksdb.

Import storage rocksdblib.

(** [mergeOperator.FullMerge]; the [key] argument is unused. *)
Fixpoint FullMerge (op : MergeOperator) (key existingValue : bytes)
    (operands : list bytes) : bytes * bool :=
  match operands with
  | [] => (existingValue, true)
  | operand :: rest =>
      let '(existingValue, ok) := MergeFunc op existingValue operand in
      if negb ok then ([], false)
      else FullMerge op key existingValue rest
  end.

Definition PartialMerge (key leftOperand rightOperand : bytes) : bytes * bool :=
  ([], false).

(** [Store.Delete]. *)
Definition Delete {V : Type} (db : DB V) (key : bytes) : DB V * option error :=
  DB_Delete db key.

(** [Store.BatchDelete]: the batch takes one deletion per key, in
    order, and is written at the end. *)
Definition BatchDelete {V : Type} (db : DB V) (keys : list bytes)
  : DB V * option error :=
  let batch := foldl (fun batch key => batch ++ [key]) [] keys in
  DB_Write db batch.

(** The closure [truncate] of [Store.Truncate]: one batch. The iterator
    is read as the library keeps it, key by key in order. *)
Definition truncate {V : Type} (avail : N) (db : DB V) (prefix min : bytes)
    (batchSize : Z) : Run (DB V * bool * option error) :=
  match makeslice avail sliceHeaderSize batchSize with
  | GoPanic why => GoPanic why
  | GoFatal why => GoFatal why
  | NoFuel => NoFuel
  | Ret _ =>
      let buf :=
        collect prefix (Z.to_nat batchSize) (seek min (sortedKeys (table db))) in
      if decide (length buf = 0%nat) then Ret (db, false, None)
      else
        let batch := foldl (fun batch key => batch ++ [key]) [] buf in
        match DB_Write db batch with
        | (db, Some err) => Ret (db, false, Some err)
        | (db, None) => Ret (db, true, None)
        end
  end.

(** [ok, err := truncate(); for ; ok; ok, err = truncate() {}]. *)
Fixpoint truncateLoop {V : Type} (fuel : nat) (avail : N) (db : DB V)
    (prefix min : bytes) (batchSize : Z) : Run (DB V * option error) :=
  match fuel with
  | O => NoFuel
  | S fuel' =>
      match truncate avail db prefix min batchSize with
      | Ret (db', true, _) => truncateLoop fuel' avail db' prefix min batchSize
      | Ret (db', false, err) => Ret (db', err)
      | GoPanic why => GoPanic why
      | GoFatal why => GoFatal why
      | NoFuel => NoFuel
      end
  end.

(** [Store.Truncate]. Every batch that reports [ok] has removed a key,
    so one step more than there are keys is budget enough. *)
Definition Truncate {V : Type} (avail : N) (db : DB V) (prefix min : bytes)
    (batchSize : Z) : Run (DB V * option error) :=
  truncateLoop (S (size (table db))) avail db prefix min batchSize.

End rocksdb.

(** ** Package [topic] *)

Module topic.

(** Modelled from the spec: package [topic] is not among the sources at
    hand. A partition is known by its id and a topic by the two lookups
    the produce path uses; [ChooseRandomPartition] stands for the
    partition the random choice lands on. *)
Record Partition : Type := mkPartition {
  Id : string
}.

Record Topic : Type := mkTopic {
  GetPartition : string -> option Partition;
  ChooseRandomPartition : Partition
}.

Definition nextOffset (log : list Message) : Offset :=
  (1 + foldr N.max 0 (Offset_ <$> log))%N.

Fixpoint assignOffsets (next : Offset) (msgs : list Message) : list Message :=
  match msgs with
  | [] => []
  | m :: rest => set_Offset next m :: assignOffsets (next + 1)%N rest
  end.

(** Modelled from the spec: [Partition.BatchPutMessages] is not among the
    sources at hand. By the spec, [batchPut] assigns each message a fresh
    offset strictly greater than all prior ones and writes the batch
    atomically, or fails with a storage error and writes nothing. The
    offset is stored into each message in place; the result gives the log
    after the append and the messages as they now read. [fault] is the
    storage engine's refusal, if any. *)
Definition BatchPutMessages (fault : option string) (log msgs : list Message)
  : string + (list Message * list Message) :=
  match fault with
  | Some cause => inl cause
  | None =>
      let msgs' := assignOffsets (nextOffset log) msgs in
      inr (log ++ msgs', msgs')
  end.

End topic.

(** ** Package [broker] *)

Module broker.

Import topic.

Definition RedeliveryTimeout : time.Duration := 10 * time.Second.
Definition MaxRedeliveryCount : Z := 5.

(** Modelled from the spec: the two names are declared outside the
    sources at hand; the spec gives both literally. *)
Definition DeathLetterChannel : string := "DeathLetter".
Definition ConsumerOffsetTopicName : string := "__consumer_offsets".

(** Error values. The first four are the package's sentinels, [Errorf]
    is a value built by [fmt.Errorf]; a call to another node fails with
    a gRPC status, the storage engine and the protobuf codec with errors
    of their own. *)
Inductive error : Type :=
| ErrNoKeySet
| ErrNoMessageToProduce
| ErrTopicNotFound
| ErrNoLeaderFound
| Errorf (text : string)
| ErrStatus (code : Z) (text : string)
| ErrStorage (cause : string)
| ErrProto (cause : string).

#[global] Instance error_eq_dec : EqDecision error.
Proof. solve_decision. Defined.

(** [codes.NotFound]. *)
Definition codes_NotFound : Z := 5.

(** ** The produce path *)

(** What a produce call sent to another node comes back with. *)
Inductive RPCReply : Type :=
| Reply (res : ProduceResponse)
| Failed (code : Z) (text : string).

Definition ofRPC (r : RPCReply) : error + ProduceResponse :=
  match r with
  | Reply res => inr res
  | Failed code text => inl (ErrStatus code text)
  end.

Record Node : Type := mkNode {
  NodeName : string;
  Node_Produce : ProduceMessageRequest -> RPCReply
}.

(** The broker as the produce path sees it. [logs] holds the partition
    logs stored on this node, by topic and partition id; [storageFault]
    is the storage engine's refusal of a batch, if any. *)
Record Broker : Type := mkBroker {
  Name : string;
  getTopic : string -> option Topic;
  getPartitionLeader : string -> string -> option Node;
  storageFault : string -> string -> list Message -> option string;
  logs : gmap (string * string) (list Message)
}.

Definition set_logs (l : gmap (string * string) (list Message)) (b : Broker) : Broker :=
  mkBroker (Name b) (getTopic b) (getPartitionLeader b) (storageFault b) l.

Definition partitionLog (b : Broker) (t p : string) : list Message :=
  default [] (logs b !! (t, p)).

(** [Broker.Produce]. The result pairs the response or error with the
    broker afterwards. *)
Definition Produce (b : Broker) (req : ProduceMessageRequest)
  : (error + ProduceResponse) * Broker :=
  if decide (length (pr_Messages req) = 0%nat) then (inl ErrNoMessageToProduce, b)
  else
    match getTopic b (pr_Topic req) with
    | None => (inl ErrTopicNotFound, b)
    | Some t =>
        let p := if decide (pr_Partition req ≠ "")
                 then GetPartition t (pr_Partition req)
                 else Some (ChooseRandomPartition t) in
        match p with
        | None =>
            (inl (Errorf ("unknown partition '" +:+ pr_Partition req +:+ "'")), b)
        | Some p =>
            match getPartitionLeader b (pr_Topic req) (Id p) with
            | None => (inl ErrNoLeaderFound, b)
            | Some leader =>
                if decide (NodeName leader ≠ Name b)
                then (ofRPC (Node_Produce leader req), b)
                else
                  let log := partitionLog b (pr_Topic req) (Id p) in
                  match BatchPutMessages
                          (storageFault b (pr_Topic req) (Id p) (pr_Messages req))
                          log (pr_Messages req) with
                  | inl cause => (inl (ErrStorage cause), b)
                  | inr (log', msgs) =>
                      (inr (mkProduceResponse (Offset_ <$> msgs)),
                       set_logs (<[(pr_Topic req, Id p) := log']> (logs b)) b)
                  end
            end
        end
    end.

(** ** Consumer groups: registration *)

(** A channel is known by its identity: the number [make] gave it. *)
Record receiver : Type := mkReceiver {
  name : string;
  msgCh : nat;
  doneCh : nat
}.

#[global] Instance receiver_eq_dec : EqDecision receiver.
Proof. solve_decision. Defined.

Record ConsumerGroup : Type := mkConsumerGroup {
  cg_topic : string;
  cg_partition : string;
  cg_channel : string;
  cg_name : string;
  receivers : list receiver
}.

Definition set_receivers (rs : list receiver) (c : ConsumerGroup) : ConsumerGroup :=
  mkConsumerGroup (cg_topic c) (cg_partition c) (cg_channel c) (cg_name c) rs.

(** The runtime around a group: the next channel identity [make] hands
    out, and how many times [go c.consumeLoop()] has run. *)
Record Runtime : Type := mkRuntime {
  nextChan : nat;
  spawned : nat
}.

(** [ConsumerGroup.getReceiver]: the first receiver of that name. *)
Fixpoint findReceiver (consumerName : string) (rs : list receiver) : option receiver :=
  match rs with
  | [] => None
  | r :: rest =>
      if decide (name r = consumerName) then Some r
      else findReceiver consumerName rest
  end.

Definition getReceiver (c : ConsumerGroup) (consumerName : string) : option receiver :=
  findReceiver consumerName (receivers c).

(** The loop of [ConsumerGroup.removeConsumer]: drop the first receiver
    of that name. *)
Fixpoint removeFirst (nm : string) (rs : list receiver) : option (list receiver) :=
  match rs with
  | [] => None
  | r :: rest =>
      if decide (name r = nm) then Some rest
      else cons r <$> removeFirst nm rest
  end.

Definition removeConsumer (c : ConsumerGroup) (nm : string) : ConsumerGroup * bool :=
  match removeFirst nm (receivers c) with
  | Some rs => (set_receivers rs c, true)
  | None => (c, false)
  end.

(** [ConsumerGroup.register]. *)
Definition register (c : ConsumerGroup) (rt : Runtime) (consumerName : string)
  : receiver * ConsumerGroup * Runtime :=
  match getReceiver c consumerName with
  | Some r => (r, c, rt)
  | None =>
      let r := mkReceiver consumerName (nextChan rt) (S (nextChan rt)) in
      let c := set_receivers (receivers c ++ [r]) c in
      let rt := mkRuntime (S (S (nextChan rt))) (spawned rt) in
      let rt := if decide (length (receivers c) = 1%nat)
                then mkRuntime (nextChan rt) (S (spawned rt))
                else rt in
      (r, c, rt)
  end.

(** [ConsumerGroup.Consume]: the two channels of the registered receiver;
    the error is always nil. *)
Definition Consume (c : ConsumerGroup) (rt : Runtime) (consumerName : string)
  : (nat * nat) * ConsumerGroup * Runtime :=
  let '(r, c, rt) := register c rt consumerName in
  ((msgCh r, doneCh r), c, rt).

(** The deferred function of [consumeLoop]: every receiver's two channels
    are closed and the list is emptied. The result pairs the group with
    the channels closed. *)
Definition teardown (c : ConsumerGroup) : ConsumerGroup * list nat :=
  (set_receivers [] c, r ← receivers c; [msgCh r; doneCh r]).

(** ** The redelivery test *)

(** [ConsumerGroup.shouldRedeliver]. The clock reading [time.Now().UTC()]
    is the argument [now]. The multiplication is on [time.Duration], an
    [int64]. *)
Definition shouldRedeliver (now : time.Time) (m : Message) (state : MarkState) : bool :=
  match Kind state with
  | MarkKind_NotAcknowledged => true
  | MarkKind_Consumed | MarkKind_Unknown =>
      let dur := RedeliveryTimeout in
      let dur := if 0 <? DeliveryCount state
                 then wrap_int64 (dur * DeliveryCount state)
                 else dur in
      time.Before (time.Add (ProducedAt m) dur) now
  | MarkKind_Acknowledged | MarkKind_Commited => false
  | MarkKind_unrecognized _ => false
  end.

(** ** The consume loop: recovery scan *)

(** Calls the scan makes on the rest of the broker, in the order made. *)
Inductive Effect : Type :=
| Deliver (m : Message)                       (* msgCh <- m *)
| CallMark (req : MarkRequest)                (* c.broker.Mark *)
| CallCommit (req : MarkRequest)              (* c.broker.Commit *)
| GoCommit                                    (* go commit(...) *)
| CallProduce (req : ProduceMessageRequest).  (* c.broker.Produce *)

(** How the rest of the broker answers the scan. The protobuf codec, the
    clustering key and the partition choice of the offsets topic are
    declared outside the sources at hand and are taken as they come. *)
Record Services : Type := mkServices {
  GetMarkStateMessage : GetMarkRequest -> option Message * option error;
  Unmarshal : bytes -> error + MarkState;
  Marshal : MarkState -> error + bytes;
  generateClusterKey : Offset -> MarkKind -> bytes;
  ChoosePartitionForKey : bytes -> Partition;
  Mark : MarkRequest -> option error;
  ProduceResult : ProduceMessageRequest -> option error
}.

(** The variables the scan's callback closes over. *)
Record ScanVars : Type := mkScanVars {
  lastMessage : option Message;
  committed : bool;
  sv_i : Z
}.

Definition isNotFound (e : error) : bool :=
  match e with
  | ErrStatus code _ => code =? codes_NotFound
  | _ => false
  end.

(** [errgroup.Group.Wait] over the two produce calls: the error of
    whichever failed, the mark update taken first. *)
Definition waitBoth (a b : option error) : option error :=
  match a with
  | Some e => Some e
  | None => b
  end.

Definition markRequest (c : ConsumerGroup) (o : Offset) (st : option MarkState)
  : MarkRequest :=
  mkMarkRequest (cg_topic c) (cg_partition c) (cg_channel c) (cg_name c) [o] st.

(** [state.DeliveryCount++] on a [uint32], then the test
    [int(state.DeliveryCount) >= MaxRedeliveryCount] that turns the kind
    to Acknowledged. *)
Definition countDelivery (state : MarkState) : MarkState :=
  let state := mkMarkState (Kind state) (wrap_uint32 (DeliveryCount state + 1)) in
  if MaxRedeliveryCount <=? DeliveryCount state
  then mkMarkState MarkKind_Acknowledged (DeliveryCount state)
  else state.

(** The body of [if c.shouldRedeliver(m, state) { ... }]: deliver, then
    update the mark. In the second branch [markedMsg] cannot be nil,
    because an absent record leaves [state] at its zero value, whose kind
    is Unknown; a nil there would be a nil dereference. [Deliver]
    records the message as it reads when it is sent. *)
Definition redeliver (sv : Services) (c : ConsumerGroup) (m : Message)
    (markedMsg : option Message) (state : MarkState)
  : list Effect * option error :=
  if decide (Kind state = MarkKind_Unknown) then
    let req := markRequest c (Offset_ m) (Some (mkMarkState MarkKind_Consumed 1)) in
    ([Deliver m; CallMark req], Mark sv req)
  else
    let state := countDelivery state in
    match markedMsg with
    | None => ([Deliver m], Some (Errorf "nil pointer dereference"))
    | Some markedMsg =>
        match Marshal sv state with
        | inl e => ([Deliver m], Some e)
        | inr v =>
            let markedMsg := set_Value v markedMsg in
            let p := ChoosePartitionForKey sv (Key markedMsg) in
            let markedMsg :=
              set_ClusteringKey (generateClusterKey sv (Offset_ m) (Kind state))
                markedMsg in
            let markReq :=
              mkProduceMessageRequest ConsumerOffsetTopicName (Id p) [markedMsg] in
            let dead := set_Channel DeathLetterChannel m in
            let deathReq :=
              mkProduceMessageRequest (cg_topic c) (cg_partition c) [dead] in
            ([Deliver m; CallProduce markReq; CallProduce deathReq],
             waitBoth (ProduceResult sv markReq) (ProduceResult sv deathReq))
        end
    end.

Definition getMarkRequest (c : ConsumerGroup) (o : Offset) : GetMarkRequest :=
  mkGetMarkRequest (cg_topic c) (cg_partition c) (cg_channel c) (cg_name c) o.

(** The closure [commit]: it commits the offset of [lastMessage] as the
    variable reads when the closure runs, whatever it is passed. *)
Definition commit (c : ConsumerGroup) (last : Message) : Effect :=
  CallCommit (markRequest c (Offset_ last) None).

(** The "advance commit offset" step of the callback. *)
Definition advanceCommit (c : ConsumerGroup) (lastCommited : Offset)
    (v : ScanVars) (i : Z) (state : MarkState) : list Effect * bool :=
  match committed v, lastMessage v with
  | false, Some last =>
      if decide (Kind state ≠ MarkKind_Acknowledged) then
        ((if negb (Offset_Equal (Offset_ last) lastCommited)
          then [commit c last] else []), true)
      else if go_rem i 10000 =? 0 then ([GoCommit], false)
      else ([], false)
  | cm, _ => ([], cm)
  end.

(** The callback handed to [FetchRangeFn] by the recovery scan. *)
Definition recoveryCallback (sv : Services) (c : ConsumerGroup)
    (lastCommited : Offset) (now : time.Time) (v : ScanVars) (m : Message)
  : ScanVars * list Effect * option error :=
  if Offset_Equal (Offset_ m) lastCommited
  then (mkScanVars (Some m) (committed v) (sv_i v), [], None)
  else
    let i := wrap_int64 (sv_i v + 1) in
    let v := mkScanVars (lastMessage v) (committed v) i in
    let '(markedMsg, err) := GetMarkStateMessage sv (getMarkRequest c (Offset_ m)) in
    match (match err with
           | Some e => if negb (isNotFound e) then Some e else None
           | None => None
           end) with
    | Some e => (v, [], Some e)
    | None =>
        match (match markedMsg with
               | Some mm => Unmarshal sv (Value mm)
               | None => inr MarkState_zero
               end) with
        | inl e => (v, [], Some e)
        | inr state =>
            let '(commits, cm) := advanceCommit c lastCommited v i state in
            let v := mkScanVars (Some m) cm i in
            if shouldRedeliver now m state then
              let '(effs, err) := redeliver sv c m markedMsg state in
              (v, commits ++ effs, err)
            else (v, commits, None)
        end
    end.

(** [FetchRangeFn] feeding the callback: the first error ends the scan. *)
Fixpoint scanMessages (sv : Services) (c : ConsumerGroup) (lastCommited : Offset)
    (now : time.Time) (v : ScanVars) (msgs : list Message)
  : ScanVars * list Effect * option error :=
  match msgs with
  | [] => (v, [], None)
  | m :: rest =>
      match recoveryCallback sv c lastCommited now v m with
      | (v', effs, Some e) => (v', effs, Some e)
      | (v', effs, None) =>
          let '(v'', effs', err) := scanMessages sv c lastCommited now v' rest in
          (v'', effs ++ effs', err)
      end
  end.

(** The recovery goroutine over the messages of [[lastCommited, lastConsumed]]. *)
Definition recoveryScan (sv : Services) (c : ConsumerGroup) (lastCommited : Offset)
    (now : time.Time) (msgs : list Message) : list Effect * option error :=
  match scanMessages sv c lastCommited now (mkScanVars None false 0) msgs with
  | (_, effs, Some e) => (effs, Some e)
  | (v, effs, None) =>
      match committed v, lastMessage v with
      | false, Some last => (effs ++ [commit c last], None)
      | _, _ => (effs, None)
      end
  end.

(** ** The consume loop: dispatcher *)

(** Which case of the [select] fires. *)
Inductive SelectCase : Type :=
| DoneFired    (* case <-r.doneCh *)
| MsgSent.     (* case r.msgCh <- m *)

(** [c.receivers[i%len(c.receivers)]]: a zero length divides by zero and
    a negative remainder is out of range; both panic. *)
Definition pick (i : Z) (rs : list receiver) : option receiver :=
  if decide (rs = []) then None
  else
    let k := go_rem i (Z.of_nat (length rs)) in
    if k <? 0 then None else rs !! Z.to_nat k.

(** Where one pass from the label [selectreceiver] leaves the loop. *)
Inductive Attempt : Type :=
| Delivered (i : Z) (c : ConsumerGroup) (r : receiver) (rest : list SelectCase)
| FellThrough (i : Z) (c : ConsumerGroup) (rest : list SelectCase)
| BreakLoop (i : Z) (c : ConsumerGroup) (rest : list SelectCase)
| Blocked (i : Z) (c : ConsumerGroup)
| Panicked.

(** From the label [selectreceiver] to the end of the [select], for one
    message. [sched] lists the cases that fire, in order; when it runs
    out the [select] stays blocked. The label stands before [i++]. *)
Fixpoint selectreceiver (i : Z) (c : ConsumerGroup) (sched : list SelectCase)
  : Attempt :=
  let i := wrap_int64 (i + 1) in
  match pick i (receivers c) with
  | None => Panicked
  | Some r =>
      match sched with
      | [] => Blocked i c
      | MsgSent :: rest => Delivered i c r rest
      | DoneFired :: rest =>
          match removeConsumer c (name r) with
          | (c', true) =>
              if decide (length (receivers c') = 0%nat) then BreakLoop i c' rest
              else selectreceiver i c' rest
          | (c', false) => FellThrough i c' rest
          end
      end
  end.

(** How the [for m = range msgCh] loop ends. *)
Inductive LoopEnd : Type :=
| ChannelClosed
| NoReceiverLeft
| StoppedOnError
| StaysBlocked
| Panics.

Record LoopResult : Type := mkLoopResult {
  ending : LoopEnd;
  lr_i : Z;
  lr_group : ConsumerGroup;
  lr_m : option Message;                       (* the variable [m] *)
  dispatched : list (receiver * Message)       (* sends done, oldest first *)
}.

(** The dispatcher: [inCh] lists the messages [msgCh] yields before it is
    closed. *)
Fixpoint dispatchLoop (i : Z) (c : ConsumerGroup) (m : option Message)
    (inCh : list Message) (sched : list SelectCase)
    (sent : list (receiver * Message)) : LoopResult :=
  match inCh with
  | [] => mkLoopResult ChannelClosed i c m sent
  | msg :: inCh' =>
      match selectreceiver i c sched with
      | Delivered i' c' r rest =>
          dispatchLoop i' c' (Some msg) inCh' rest (sent ++ [(r, msg)])
      | FellThrough i' c' rest =>
          dispatchLoop i' c' (Some msg) inCh' rest sent
      | BreakLoop i' c' rest => mkLoopResult NoReceiverLeft i' c' (Some msg) sent
      | Blocked i' c' => mkLoopResult StaysBlocked i' c' (Some msg) sent
      | Panicked => mkLoopResult Panics i c (Some msg) sent
      end
  end.

(** After the loop: [if m != nil && !m.Offset.Equal(lastConsumed)] the
    offset of [m] goes to [MarkConsumed]. *)
Definition consumedMark (m : option Message) (lastConsumed : Offset) : option Offset :=
  match m with
  | Some m =>
      if negb (Offset_Equal (Offset_ m) lastConsumed) then Some (Offset_ m) else None
  | None => None
  end.

(** The dispatcher of [consumeLoop] with what follows it: the result of
    the loop and the offset marked consumed, if any. *)
Definition consumeLoop (c : ConsumerGroup) (lastConsumed : Offset)
    (inCh : list Message) (sched : list SelectCase) : LoopResult * option Offset :=
  let res := dispatchLoop 0 c None inCh sched [] in
  (res, consumedMark (lr_m res) lastConsumed).

End broker.

(** ** Package [broker], earlier revision: the dispatcher *)

Module broker0.

Import broker.

(** From the label [selectreceiver] to the end of the [select]: here the
    label stands after the counter, which the caller steps once the
    [select] is over. *)
Fixpoint selectreceiver (i : Z) (c : ConsumerGroup) (sched : list SelectCase)
  : Attempt :=
  match pick i (receivers c) with
  | None => Panicked
  | Some r =>
      match sched with
      | [] => Blocked i c
      | MsgSent :: rest => Delivered i c r rest
      | DoneFired :: rest =>
          match removeConsumer c (name r) with
          | (c', true) =>
              if decide (length (receivers c') = 0%nat) then BreakLoop i c' rest
              else selectreceiver i c' rest
          | (c', false) => FellThrough i c' rest
          end
      end
  end.

(** The dispatcher. [isAcknoweldged] answers for an offset with an error
    or a verdict. The message variable lives inside the loop, so the
    result keeps none. *)
Fixpoint dispatchLoop (isAcknoweldged : Offset -> error + bool)
    (i : Z) (c : ConsumerGroup) (inCh : list Message) (sched : list SelectCase)
    (sent : list (receiver * Message)) : LoopResult :=
  match inCh with
  | [] => mkLoopResult ChannelClosed i c None sent
  | m :: inCh' =>
      match isAcknoweldged (Offset_ m) with
      | inl _ => mkLoopResult StoppedOnError i c None sent
      | inr true => dispatchLoop isAcknoweldged i c inCh' sched sent
      | inr false =>
          match selectreceiver i c sched with
          | Delivered i' c' r rest =>
              dispatchLoop isAcknoweldged (wrap_int64 (i' + 1)) c' inCh' rest
                (sent ++ [(r, m)])
          | FellThrough i' c' rest =>
              dispatchLoop isAcknoweldged (wrap_int64 (i' + 1)) c' inCh' rest sent
          | BreakLoop i' c' rest => mkLoopResult NoReceiverLeft i' c' None sent
          | Blocked i' c' => mkLoopResult StaysBlocked i' c' None sent
          | Panicked => mkLoopResult Panics i c None sent
          end
      end
  end.

End broker0.

(** ** Auxiliary notions used by the statements *)

(** The redelivery timeout as the formula [RedeliveryTimeout * max 1
    DeliveryCount] gives it, in exact integers. *)
Definition exact_timeout (state : MarkState) : Z :=
  broker.RedeliveryTimeout * Z.max 1 (DeliveryCount state).

(** The timeout the code uses: the same product in [int64]. *)
Definition code_timeout (state : MarkState) : Z :=
  if 0 <? DeliveryCount state
  then wrap_int64 (broker.RedeliveryTimeout * DeliveryCount state)
  else broker.RedeliveryTimeout.

(** Largest delivery count whose timeout still fits a [time.Duration]. *)
Definition max_exact_count : Z := 922337203.

(** The partition the produce path settles on: the requested one when the
    request names one, else the topic's random choice. *)
Definition chosenPartition (t : topic.Topic) (req : ProduceMessageRequest)
  : option topic.Partition :=
  if decide (pr_Partition req ≠ "")
  then topic.GetPartition t (pr_Partition req)
  else Some (topic.ChooseRandomPartition t).

(** The channels the receivers of a group hold. *)
Definition channels (c : broker.ConsumerGroup) : list nat :=
  r ← broker.receivers c; [broker.msgCh r; broker.doneCh r].

(** A group in good order: no two receivers share a name or a channel,
    and every channel in use was handed out by [make] before. *)
Definition attached_ok (c : broker.ConsumerGroup) (rt : broker.Runtime) : Prop :=
  NoDup (broker.name <$> broker.receivers c) /\
  NoDup (channels c) /\
  Forall (fun ch => (ch < broker.nextChan rt)%nat) (channels c).

(** The synchronous commit calls among the effects of a scan. *)
Definition isCallCommit (e : broker.Effect) : bool :=
  match e with
  | broker.CallCommit _ => true
  | _ => false
  end.

Definition commitCalls (effs : list broker.Effect) : nat :=
  length (filter (fun e => isCallCommit e = true) effs).

(** Every message of the list has a mark, and it reads Acknowledged. *)
Definition allAcknowledged (sv : broker.Services) (c : broker.ConsumerGroup)
    (msgs : list Message) : Prop :=
  Forall (fun m => exists mm state,
            broker.GetMarkStateMessage sv (broker.getMarkRequest c (Offset_ m))
            = (Some mm, None) /\
            broker.Unmarshal sv (Value mm) = inr state /\
            Kind state = MarkKind_Acknowledged) msgs.

(** The messages that arrive before the first one whose acknowledgement
    lookup fails. *)
Fixpoint untilError (isAcknoweldged : Offset -> broker.error + bool)
    (inCh : list Message) : list Message :=
  match inCh with
  | [] => []
  | m :: rest =>
      match isAcknoweldged (Offset_ m) with
      | inl _ => []
      | inr _ => m :: untilError isAcknoweldged rest
      end
  end.

(** Effects that neither deliver a message nor write a mark. *)
Definition isCommitting (e : broker.Effect) : bool :=
  match e with
  | broker.CallCommit _ | broker.GoCommit => true
  | _ => false
  end.

(** A transaction that is open for writing. *)
Definition writable (txn : badgerlib.Txn) : Prop :=
  badgerlib.update txn = true /\ badgerlib.discarded txn = false.

(** [t'] is [t] less some keys, each of which carries [prefix] and is not
    below [min]; no value has changed. *)
Definition trimmed {A : Type} (prefix min : bytes) (t t' : gmap bytes A) : Prop :=
  forall k,
    t' !! k = t !! k \/
    (t' !! k = None /\ storage.hasPrefix k prefix = true /\
     storage.key_leb min k = true).

(** The value a batch of puts leaves under [k]: that of the last entry
    for [k], if there is one. *)
Fixpoint lastPut (entries : list storage.Entry) (k : bytes) : option bytes :=
  match entries with
  | [] => None
  | e :: rest =>
      match lastPut rest k with
      | Some v => Some v
      | None => if decide (storage.e_Key e = k) then Some (storage.e_Value e) else None
      end
  end.

(** The request by which the scan writes the mark [st], encoded as [v],
    into the mark message [mm] of the message [m]. *)
Definition markProduce (sv : broker.Services) (m mm : Message) (st : MarkState)
    (v : bytes) : ProduceMessageRequest :=
  mkProduceMessageRequest broker.ConsumerOffsetTopicName
    (topic.Id (broker.ChoosePartitionForKey sv (Key mm)))
    [set_ClusteringKey (broker.generateClusterKey sv (Offset_ m) (Kind st))
       (set_Value v mm)].

(** The request that republishes [m] on the dead-letter channel of the
    group's topic and partition. *)
Definition deathProduce (c : broker.ConsumerGroup) (m : Message)
  : ProduceMessageRequest :=
  mkProduceMessageRequest (broker.cg_topic c) (broker.cg_partition c)
    [set_Channel broker.DeathLetterChannel m].

Definition isDeathProduce (e : broker.Effect) : bool :=
  match e with
  | broker.CallProduce req =>
      bool_decide (Forall (fun m => Channel m = broker.DeathLetterChannel)
                     (pr_Messages req))
  | _ => false
  end.

(** ** Sample values *)

(** A table with the keys "a1", "a2" and "b1". *)
Definition sample_table : gmap bytes bytes :=
  list_to_map
    [([Byte.x61; Byte.x31], [Byte.x01]);
     ([Byte.x61; Byte.x32], [Byte.x02]);
     ([Byte.x62; Byte.x31], [Byte.x03])].

(** Limits in the manner of the library's defaults: keys of at most
    65000 bytes, values of at most 2^30 bytes, fewer than 100000 writes
    in a transaction. *)
Definition sample_limits : badgerlib.Limits :=
  fun taken w =>
    if (65000 <? N.of_nat (length (fst w)))%N then Some badgerlib.ErrKeyTooLong
    else if (1073741824 <? N.of_nat (length (default [] (snd w))))%N
    then Some badgerlib.ErrValueTooLarge
    else if (100000 <=? N.of_nat (S (length taken)))%N then Some badgerlib.ErrTxnTooBig
    else None.

Definition sample_db : badgerlib.DB := badgerlib.mkDB sample_table sample_limits.

(** The same table in a rocksdb store whose calls all succeed. *)
Definition sample_store : rocksdblib.DB bytes := rocksdblib.mkDB sample_table [].

Definition sample_message (o : Offset) (at_ : time.Time) : Message :=
  mkMessage o [Byte.x6b] [Byte.x76] [] "" at_.

Definition sample_topic : topic.Topic :=
  topic.mkTopic
    (fun id => if decide (id = "p0") then Some (topic.mkPartition "p0") else None)
    (topic.mkPartition "p0").

(** A node named [n] whose produce call answers with [reply]. *)
Definition sample_node (n : string) (reply : broker.RPCReply) : broker.Node :=
  broker.mkNode n (fun _ => reply).

(** A broker named "n1" that knows the topic "orders", sees [leader] as
    the leader of every partition, and holds an empty log. *)
Definition sample_broker (leader : broker.Node) : broker.Broker :=
  broker.mkBroker "n1"
    (fun t => if decide (t = "orders") then Some sample_topic else None)
    (fun _ _ => Some leader)
    (fun _ _ _ => None)
    ∅.

Definition sample_group : broker.ConsumerGroup :=
  broker.mkConsumerGroup "orders" "p0" "" "g" [].

Definition kind_code (k : MarkKind) : Z :=
  match k with
  | MarkKind_Unknown => 0
  | MarkKind_NotAcknowledged => 1
  | MarkKind_Consumed => 2
  | MarkKind_Acknowledged => 3
  | MarkKind_Commited => 4
  | MarkKind_unrecognized code => code
  end.

Definition code_kind (z : Z) : MarkKind :=
  match z with
  | 0 => MarkKind_Unknown
  | 1 => MarkKind_NotAcknowledged
  | 2 => MarkKind_Consumed
  | 3 => MarkKind_Acknowledged
  | 4 => MarkKind_Commited
  | _ => MarkKind_unrecognized z
  end.

Definition byte_of_Z (z : Z) : Byte.byte :=
  default Byte.x00 (Byte.of_N (Z.to_N (z mod 256))).

Definition Z_of_byte (b : Byte.byte) : Z := Z.of_N (Byte.to_N b).

(** A toy codec: one byte for the kind, four for the count, low byte
    first. *)
Definition sample_Marshal (st : MarkState) : broker.error + bytes :=
  let n := DeliveryCount st in
  inr [byte_of_Z (kind_code (Kind st)); byte_of_Z n; byte_of_Z (n / 2 ^ 8);
       byte_of_Z (n / 2 ^ 16); byte_of_Z (n / 2 ^ 24)].

Definition sample_Unmarshal (v : bytes) : broker.error + MarkState :=
  match v with
  | [k; n0; n1; n2; n3] =>
      inr (mkMarkState (code_kind (Z_of_byte k))
             (Z_of_byte n0 + 2 ^ 8 * Z_of_byte n1 + 2 ^ 16 * Z_of_byte n2
              + 2 ^ 24 * Z_of_byte n3))
  | _ => inl (broker.ErrProto "malformed mark state")
  end.

(** The mark message of the sample group, holding [st]. *)
Definition sample_mark (st : MarkState) : Message :=
  mkMessage 3%N [Byte.x6d] (match sample_Marshal st with inr v => v | inl _ => [] end)
    [] "" 0.

(** Services of a broker whose mark store holds [stored] for every offset
    (a status NotFound when it holds nothing) and whose calls all
    succeed. *)
Definition sample_services (stored : option MarkState) : broker.Services :=
  broker.mkServices
    (fun _ => match stored with
              | Some st => (Some (sample_mark st), None)
              | None => (None, Some (broker.ErrStatus broker.codes_NotFound "not found"))
              end)
    sample_Unmarshal
    sample_Marshal
    (fun o k => [byte_of_Z (Z.of_N o); byte_of_Z (kind_code k)])
    (fun _ => topic.mkPartition "offsets-0")
    (fun _ => None)
    (fun _ => None).

(** The mark a round of the scan leaves behind, read off its calls: the
    state given to [Mark], or the one encoded in the message produced to
    the offsets topic. *)
Definition written_mark (e : broker.Effect) : option MarkState :=
  match e with
  | broker.CallMark req => mr_State req
  | broker.CallProduce req =>
      if decide (pr_Topic req = broker.ConsumerOffsetTopicName) then
        match pr_Messages req with
        | [mm] => match sample_Unmarshal (Value mm) with
                  | inr st => Some st
                  | inl _ => None
                  end
        | _ => None
        end
      else None
  | _ => None
  end.

Definition last_written (stored : option MarkState) (effs : list broker.Effect)
  : option MarkState :=
  foldl (fun acc e => match written_mark e with Some st => Some st | None => acc end)
    stored effs.

(** Modelled from the spec: the mark store is not among the sources at
    hand; by the spec a lookup returns the latest mark written for the
    offset. The life of one message that no consumer acknowledges: in each
    of [n] successive consume loops the recovery scan meets [m] with the
    mark the previous round left. *)
Fixpoint unacked_rounds (n : nat) (now : time.Time) (m : Message)
    (stored : option MarkState) : list (list broker.Effect) :=
  match n with
  | O => []
  | S n' =>
      let '(_, effs, _) :=
        broker.recoveryCallback (sample_services stored) sample_group 0%N now
          (broker.mkScanVars None false 0) m in
      effs :: unacked_rounds n' now m (last_written stored effs)
  end.

Definition alice : broker.receiver := broker.mkReceiver "alice" 0 1.
Definition bob : broker.receiver := broker.mkReceiver "bob" 2 3.
Definition carol : broker.receiver := broker.mkReceiver "carol" 4 5.

Definition group_of (rs : list broker.receiver) : broker.ConsumerGroup :=
  broker.set_receivers rs sample_group.

Definition sample_request : ProduceMessageRequest :=
  mkProduceMessageRequest "orders" "p0"
    [sample_message 0%N 100; sample_message 0%N 200].

(** A merge function that never merges. *)
Definition never_merges : storage.MergeOperator :=
  storage.mkMergeOperator [] (fun _ _ => ([], false)).

(** A merge function that appends the operand. *)
Definition appends : storage.MergeOperator :=
  storage.mkMergeOperator [] (fun existing value => (existing ++ value, true)).



(** * Properties *)

(** ** Machine arithmetic *)

Lemma wrap_int64_small z : - 2 ^ 63 <= z <= max_int64 -> wrap_int64 z = z.
Proof.
  unfold wrap_int64, max_int64. intros Hz.
  rewrite Z.mod_small by lia. lia.
Qed.

Lemma wrap_uint32_small z : 0 <= z <= max_uint32 -> wrap_uint32 z = z.
Proof.
  unfold wrap_uint32, max_uint32. intros Hz. apply Z.mod_small. lia.
Qed.

(** ** The redelivery test *)

Lemma code_timeout_exact state :
  0 <= DeliveryCount state <= max_exact_count ->
  code_timeout state = exact_timeout state.
Proof.
  unfold code_timeout, exact_timeout, max_exact_count,
    broker.RedeliveryTimeout, time.Second.
  intros Hc. destruct (Z.ltb_spec 0 (DeliveryCount state)) as [Hpos|Hz].
  - rewrite Z.max_r by lia. apply wrap_int64_small. unfold max_int64. lia.
  - rewrite Z.max_l by lia. reflexivity.
Qed.

Lemma shouldRedeliver_inflight now m state :
  Kind state = MarkKind_Consumed \/ Kind state = MarkKind_Unknown ->
  broker.shouldRedeliver now m state = true <->
  ProducedAt m + code_timeout state < now.
Proof.
  intros Hk. unfold broker.shouldRedeliver, code_timeout, time.Before, time.Add.
  destruct Hk as [-> | ->]; apply Z.ltb_lt.
Qed.

(** C4 (as amended). [shouldRedeliver] answers true for NotAcknowledged;
    for Consumed and Unknown it answers true exactly when
    [ProducedAt + D] is before the current time, where [D] is
    [RedeliveryTimeout * max 1 DeliveryCount] computed in [int64]
    nanoseconds, which is the exact product for every DeliveryCount up to
    922337203; it answers false for Acknowledged and Commited, and false
    for any unrecognized kind. *)
Theorem shouldRedeliver_cases now m state :
  (Kind state = MarkKind_NotAcknowledged ->
     broker.shouldRedeliver now m state = true) /\
  (Kind state = MarkKind_Consumed \/ Kind state = MarkKind_Unknown ->
     (broker.shouldRedeliver now m state = true <->
      ProducedAt m + code_timeout state < now) /\
     (0 <= DeliveryCount state <= max_exact_count ->
      (broker.shouldRedeliver now m state = true <->
       ProducedAt m + broker.RedeliveryTimeout * Z.max 1 (DeliveryCount state) < now))) /\
  (Kind state = MarkKind_Acknowledged \/ Kind state = MarkKind_Commited ->
     broker.shouldRedeliver now m state = false) /\
  (forall code, Kind state = MarkKind_unrecognized code ->
     broker.shouldRedeliver now m state = false).
Proof.
  repeat split.
  - intros Hk. unfold broker.shouldRedeliver. now rewrite Hk.
  - now apply shouldRedeliver_inflight.
  - now apply shouldRedeliver_inflight.
  - rewrite shouldRedeliver_inflight by assumption.
    now rewrite code_timeout_exact.
  - rewrite shouldRedeliver_inflight by assumption.
    now rewrite code_timeout_exact.
  - intros [Hk | Hk]; unfold broker.shouldRedeliver; now rewrite Hk.
  - intros code Hk. unfold broker.shouldRedeliver. now rewrite Hk.
Qed.

(** A message produced at instant 0, inspected 25 seconds later after two
    deliveries: the 20 second timeout has passed. *)
Lemma shouldRedeliver_cases_witness :
  broker.shouldRedeliver 25000000000
    (mkMessage 7%N [] [] [] "" 0) (mkMarkState MarkKind_Consumed 2) = true.
Proof.
  pose proof (shouldRedeliver_cases 25000000000
    (mkMessage 7%N [] [] [] "" 0) (mkMarkState MarkKind_Consumed 2)) as H.
  destruct H as (_ & Hinflight & _).
  destruct (Hinflight (or_introl eq_refl)) as [_ Hexact].
  apply Hexact; [unfold max_exact_count | vm_compute]; simpl; try lia.
  reflexivity.
Defined.

(** C4 (as stated) fails: with DeliveryCount = 1000000000 the product
    [RedeliveryTimeout * DeliveryCount] leaves the [int64] range and wraps
    to a negative duration, so a message produced one nanosecond ago is
    redelivered although its exact timeout lies centuries ahead. *)
Lemma shouldRedeliver_exact_formula_fails :
  ~ (forall now m state,
       Kind state = MarkKind_Consumed ->
       0 <= DeliveryCount state <= max_uint32 ->
       (broker.shouldRedeliver now m state = true <->
        ProducedAt m + broker.RedeliveryTimeout * Z.max 1 (DeliveryCount state) < now)).
Proof.
  intros H.
  specialize (H 1 (mkMessage 7%N [] [] [] "" 0)
                (mkMarkState MarkKind_Consumed 1000000000) eq_refl).
  destruct H as [H _]; [vm_compute; split; discriminate |].
  specialize (H eq_refl). vm_compute in H. discriminate H.
Qed.

(** ** The merge wrappers of the two back ends *)

Section MergeWrappers.

Import storage.
Variable op : MergeOperator.

Lemma FullMerge_cons key existing operand rest :
  rocksdb.FullMerge op key existing (operand :: rest) =
  if snd (MergeFunc op existing operand)
  then rocksdb.FullMerge op key (fst (MergeFunc op existing operand)) rest
  else ([], false).
Proof. simpl. destruct (MergeFunc op existing operand) as [v [|]]; reflexivity. Qed.



(** An aborted [FullMerge] carries no value. *)
Lemma FullMerge_abort key operands : forall existing v,
  rocksdb.FullMerge op key existing operands = (v, false) -> v = [].
Proof.
  induction operands as [|operand rest IH]; intros existing v.
  - simpl. congruence.
  - rewrite FullMerge_cons.
    destruct (snd (MergeFunc op existing operand)); [apply IH | congruence].
Qed.

(** With no operand the only version is the stored value. *)
Lemma merged_nil existing : badger.merged op existing [] = existing.
Proof. reflexivity. Qed.


Section Commutative.

Hypothesis always_ok : forall a b, snd (MergeFunc op a b) = true.
Hypothesis commutative : forall a b,
  fst (MergeFunc op a b) = fst (MergeFunc op b a).
Hypothesis associative : forall a b c,
  fst (MergeFunc op (fst (MergeFunc op a b)) c) =
  fst (MergeFunc op a (fst (MergeFunc op b c))).

Let f (a b : bytes) : bytes := fst (MergeFunc op a b).












End Commutative.

End MergeWrappers.



(** The two also differ under a merge function that never reports not-ok:
    appending is not commutative, and over the stored byte 01 and the
    operands 02 and 03 rocksdb yields 01 02 03 where badger yields
    03 02 01. *)
Example merge_wrappers_differ_in_order :
  rocksdb.FullMerge appends [] [Byte.x01] [[Byte.x02]; [Byte.x03]] =
    ([Byte.x01; Byte.x02; Byte.x03], true) /\
  badger.merged appends [Byte.x01] [[Byte.x02]; [Byte.x03]] =
    [Byte.x03; Byte.x02; Byte.x01] /\
  rocksdb.FullMerge never_merges [] [Byte.x01] [[Byte.x02]] = ([], false) /\
  badger.merged never_merges [Byte.x01] [[Byte.x02]] = [Byte.x02].
Proof. vm_compute. repeat split. Qed.

(** ** Deleting in the badger back end *)

Lemma badger_Delete_store db key : fst (badger.Delete db key) = db.
Proof.
  unfold badger.Delete.
  destruct (badgerlib.Txn_Delete (badgerlib.NewTransaction db true) key) as [txn err].
  reflexivity.
Qed.

Lemma badger_BatchDelete_store db keys : fst (badger.BatchDelete db keys) = db.
Proof.
  unfold badger.BatchDelete.
  destruct (badger.deleteAll (badgerlib.NewTransaction db true) keys) as [txn err].
  reflexivity.
Qed.

(** The deletions do reach the transaction: a read inside it no longer
    finds the key. Only the commit is missing. *)
Lemma Txn_Delete_pending db key txn :
  badgerlib.Txn_Delete (badgerlib.NewTransaction db true) key = (txn, None) ->
  badgerlib.Txn_Get txn key = inr badgerlib.ErrKeyNotFound.
Proof.
  unfold badgerlib.Txn_Delete, badgerlib.modify, badgerlib.NewTransaction. simpl.
  destruct (decide (key = [])) as [|Hne]; [discriminate|].
  destruct (badgerlib.limits db [] (key, None)); [discriminate|].
  intros [= <-]. unfold badgerlib.Txn_Get. simpl.
  rewrite decide_False by assumption.
  now rewrite lookup_insert_eq.
Qed.

(** C10. In the badger back end [Delete] and [BatchDelete] leave the store
    as it was, for every key and every list of keys: the transaction that
    holds the deletions is discarded and never committed, so a [Get] of
    any key afterwards returns what it returned before. *)
Theorem badger_delete_leaves_store (db : badgerlib.DB) (key : bytes)
    (keys : list bytes) (k : bytes) :
  fst (badger.Delete db key) = db /\
  fst (badger.BatchDelete db keys) = db /\
  badger.Get (fst (badger.Delete db k)) k = badger.Get db k /\
  badger.Get (fst (badger.BatchDelete db keys)) k = badger.Get db k.
Proof.
  rewrite !badger_Delete_store, badger_BatchDelete_store. auto.
Qed.

(** A value put under a key is still read back after the key is deleted,
    whereas the rocksdb back end does remove it. *)
Example badger_put_delete_get :
  let db := fst (badger.Put (badgerlib.mkDB ∅ sample_limits) [Byte.x6b] [Byte.x76]) in
  badger.Get db [Byte.x6b] = ([Byte.x76], None) /\
  badger.Delete db [Byte.x6b] = (db, None) /\
  badger.Get (fst (badger.Delete db [Byte.x6b])) [Byte.x6b] = ([Byte.x76], None) /\
  badger.Get (fst (badger.BatchDelete db [[Byte.x6b]])) [Byte.x6b] = ([Byte.x76], None) /\
  rocksdblib.table
    (fst (rocksdb.Delete (rocksdblib.mkDB (badgerlib.table db) []) [Byte.x6b]))
    !! [Byte.x6b] = None.
Proof. vm_compute. repeat split. Qed.

(** ** Registration *)

Section Registration.

Import broker.

Lemma findReceiver_name n rs r : findReceiver n rs = Some r -> name r = n.
Proof.
  induction rs as [|r0 rs IH]; simpl; [discriminate|].
  destruct (decide (name r0 = n)); [congruence | exact IH].
Qed.

Lemma findReceiver_elem n rs r : findReceiver n rs = Some r -> r ∈ rs.
Proof.
  induction rs as [|r0 rs IH]; simpl; [discriminate|].
  destruct (decide (name r0 = n)).
  - intros [= ->]. left.
  - intros H. right. auto.
Qed.





End Registration.


(** ** The produce path *)

Section ProducePath.

Import topic broker.

Lemma assignOffsets_length msgs : forall next,
  length (assignOffsets next msgs) = length msgs.
Proof. induction msgs as [|m rest IH]; intros next; simpl; [|rewrite IH]; reflexivity. Qed.

Lemma assignOffsets_lookup msgs : forall next (i : nat),
  assignOffsets next msgs !! i =
  set_Offset (next + N.of_nat i)%N <$> msgs !! i.
Proof.
  induction msgs as [|m rest IH]; intros next i; [reflexivity|].
  destruct i as [|i]; simpl.
  - now rewrite N.add_0_r.
  - rewrite IH. now replace (next + 1 + N.of_nat i)%N with (next + N.of_nat (S i))%N by lia.
Qed.

(** The offsets handed out are consecutive, starting at [next]. *)
Lemma assignOffsets_offsets msgs : forall next (i : nat),
  (i < length msgs)%nat ->
  (Offset_ <$> assignOffsets next msgs) !! i = Some (next + N.of_nat i)%N.
Proof.
  intros next i Hi. rewrite list_lookup_fmap, assignOffsets_lookup.
  destruct (lookup_lt_is_Some_2 msgs i Hi) as [m ->]. reflexivity.
Qed.

Variable b : Broker.
Variable req : ProduceMessageRequest.

Lemma Produce_empty :
  pr_Messages req = [] -> Produce b req = (inl ErrNoMessageToProduce, b).
Proof. unfold Produce. now intros ->. Qed.

Lemma Produce_nonempty :
  pr_Messages req <> [] ->
  Produce b req =
  match getTopic b (pr_Topic req) with
  | None => (inl ErrTopicNotFound, b)
  | Some t =>
      match chosenPartition t req with
      | None => (inl (Errorf ("unknown partition '" +:+ pr_Partition req +:+ "'")), b)
      | Some p =>
          match getPartitionLeader b (pr_Topic req) (Id p) with
          | None => (inl ErrNoLeaderFound, b)
          | Some leader =>
              if decide (NodeName leader ≠ Name b)
              then (ofRPC (Node_Produce leader req), b)
              else
                match BatchPutMessages
                        (storageFault b (pr_Topic req) (Id p) (pr_Messages req))
                        (partitionLog b (pr_Topic req) (Id p)) (pr_Messages req) with
                | inl cause => (inl (ErrStorage cause), b)
                | inr (log', msgs) =>
                    (inr (mkProduceResponse (Offset_ <$> msgs)),
                     set_logs (<[(pr_Topic req, Id p) := log']> (logs b)) b)
                end
          end
      end
  end.
Proof.
  intros Hne. unfold Produce, chosenPartition.
  destruct (decide (length (pr_Messages req) = 0%nat)) as [Hlen|_]; [|reflexivity].
  destruct (pr_Messages req); [congruence | discriminate].
Qed.

Lemma ofRPC_not_sentinel r : ofRPC r <> inl ErrNoMessageToProduce.
Proof. destruct r; discriminate. Qed.

Lemma Produce_no_messages_iff :
  fst (Produce b req) = inl ErrNoMessageToProduce <-> pr_Messages req = [].
Proof.
  split; [|intros H; now rewrite Produce_empty].
  intros H. destruct (decide (pr_Messages req = [])) as [|Hne]; [assumption|].
  exfalso. rewrite (Produce_nonempty Hne) in H.
  destruct (getTopic b (pr_Topic req)) as [t|]; [|discriminate].
  destruct (chosenPartition t req) as [p|]; [|discriminate].
  destruct (getPartitionLeader b (pr_Topic req) (Id p)) as [leader|]; [|discriminate].
  destruct (decide (NodeName leader ≠ Name b)).
  - simpl in H. now apply ofRPC_not_sentinel in H.
  - destruct (BatchPutMessages _ _ _) as [cause|[log' msgs]]; discriminate.
Qed.

End ProducePath.

(** C6. [Produce] fails with the no-messages error exactly when the
    request carries no message; with messages, it fails with the
    topic-not-found error when the topic lookup fails, with an
    unknown-partition error when the request names a partition that does
    not resolve, with the no-leader error when the partition has no
    leader; and when this node is the leader it returns, after a
    successful batch append, one assigned offset per input message in the
    input order, while a failed append returns the storage error and no
    offsets. *)
Theorem Produce_outcomes (b : broker.Broker) (req : ProduceMessageRequest) :
  (fst (broker.Produce b req) = inl broker.ErrNoMessageToProduce <->
   pr_Messages req = []) /\
  (pr_Messages req <> [] ->
   (broker.getTopic b (pr_Topic req) = None ->
    broker.Produce b req = (inl broker.ErrTopicNotFound, b)) /\
   (forall t, broker.getTopic b (pr_Topic req) = Some t ->
    (pr_Partition req <> "" ->
     topic.GetPartition t (pr_Partition req) = None ->
     broker.Produce b req =
     (inl (broker.Errorf ("unknown partition '" +:+ pr_Partition req +:+ "'")), b)) /\
    (forall p, chosenPartition t req = Some p ->
     (broker.getPartitionLeader b (pr_Topic req) (topic.Id p) = None ->
      broker.Produce b req = (inl broker.ErrNoLeaderFound, b)) /\
     (forall leader,
      broker.getPartitionLeader b (pr_Topic req) (topic.Id p) = Some leader ->
      broker.NodeName leader = broker.Name b ->
      (forall cause,
       broker.storageFault b (pr_Topic req) (topic.Id p) (pr_Messages req) = Some cause ->
       broker.Produce b req = (inl (broker.ErrStorage cause), b)) /\
      (broker.storageFault b (pr_Topic req) (topic.Id p) (pr_Messages req) = None ->
       exists msgs,
         fst (broker.Produce b req) = inr (mkProduceResponse (Offset_ <$> msgs)) /\
         length (Offset_ <$> msgs) = length (pr_Messages req) /\
         (forall (i : nat) m, pr_Messages req !! i = Some m ->
            exists o, (Offset_ <$> msgs) !! i = Some o /\
                      msgs !! i = Some (set_Offset o m)) /\
         broker.partitionLog (snd (broker.Produce b req)) (pr_Topic req) (topic.Id p) =
         broker.partitionLog b (pr_Topic req) (topic.Id p) ++ msgs))))).
Proof.
  split; [apply Produce_no_messages_iff|].
  intros Hne. rewrite (Produce_nonempty b req Hne).
  split; [now intros ->|].
  intros t ->. split.
  - intros Hset Hnone. unfold chosenPartition.
    rewrite decide_True by assumption. now rewrite Hnone.
  - intros p ->. split; [now intros ->|].
    intros leader -> Hself. rewrite decide_False by (intros Hd; now apply Hd).
    split.
    + intros cause ->. reflexivity.
    + intros ->. unfold topic.BatchPutMessages.
      eexists. split; [reflexivity|]. split; [|split].
      * now rewrite length_fmap, assignOffsets_length.
      * intros i m Hm. rewrite list_lookup_fmap, assignOffsets_lookup, Hm. simpl.
        eexists. split; reflexivity.
      * unfold broker.partitionLog at 1. simpl. now rewrite lookup_insert_eq.
Qed.

(** The sample broker, leader of its partition, appends the two sample
    messages and answers with their two offsets. *)
Lemma Produce_outcomes_witness :
  exists msgs,
    fst (broker.Produce (sample_broker (sample_node "n1" (broker.Failed 14 "unused")))
           sample_request) = inr (mkProduceResponse (Offset_ <$> msgs)) /\
    length (Offset_ <$> msgs) = 2%nat.
Proof.
  pose proof (Produce_outcomes
    (sample_broker (sample_node "n1" (broker.Failed 14 "unused"))) sample_request)
    as [_ H].
  destruct (H ltac:(discriminate)) as [_ Ht].
  destruct (Ht sample_topic eq_refl) as [_ Hp].
  destruct (Hp (topic.mkPartition "p0") eq_refl) as [_ Hl].
  destruct (Hl (sample_node "n1" (broker.Failed 14 "unused")) eq_refl eq_refl)
    as [_ Hok].
  destruct (Hok eq_refl) as (msgs & Hres & Hlen & _).
  exists msgs. split; [exact Hres | exact Hlen].
Defined.

Lemma ofRPC_inj r1 r2 : broker.ofRPC r1 = broker.ofRPC r2 -> r1 = r2.
Proof. destruct r1, r2; simpl; congruence. Qed.

(** C7. A produce request received by a node that is not the partition
    leader is forwarded to the leader as it stands; what the caller gets
    back, offsets or error, is the leader's answer; and the node writes
    nothing to its own partition logs. *)
Theorem Produce_forwards (b : broker.Broker) (req : ProduceMessageRequest)
    (t : topic.Topic) (p : topic.Partition) (leader : broker.Node) :
  pr_Messages req <> [] ->
  broker.getTopic b (pr_Topic req) = Some t ->
  chosenPartition t req = Some p ->
  broker.getPartitionLeader b (pr_Topic req) (topic.Id p) = Some leader ->
  broker.NodeName leader <> broker.Name b ->
  broker.Produce b req = (broker.ofRPC (broker.Node_Produce leader req), b) /\
  (forall res, broker.Node_Produce leader req = broker.Reply res <->
               fst (broker.Produce b req) = inr res) /\
  (forall code text, broker.Node_Produce leader req = broker.Failed code text <->
                     fst (broker.Produce b req) = inl (broker.ErrStatus code text)) /\
  broker.logs (snd (broker.Produce b req)) = broker.logs b.
Proof.
  intros Hne Ht Hp Hl Hother.
  rewrite (Produce_nonempty b req Hne), Ht, Hp, Hl.
  rewrite decide_True by assumption. simpl.
  split; [reflexivity|]. split; [|split; [|reflexivity]].
  - intros res. destruct (broker.Node_Produce leader req); simpl; split; congruence.
  - intros code text.
    destruct (broker.Node_Produce leader req); simpl; split; congruence.
Qed.

(** The sample broker forwards to the leader "n2" and hands back its two
    offsets without touching its own (empty) logs. *)
Lemma Produce_forwards_witness :
  broker.Produce
    (sample_broker (sample_node "n2" (broker.Reply (mkProduceResponse [41%N; 42%N]))))
    sample_request =
  (inr (mkProduceResponse [41%N; 42%N]),
   sample_broker (sample_node "n2" (broker.Reply (mkProduceResponse [41%N; 42%N])))).
Proof.
  refine (proj1 (Produce_forwards
    (sample_broker (sample_node "n2" (broker.Reply (mkProduceResponse [41%N; 42%N]))))
    sample_request sample_topic (topic.mkPartition "p0")
    (sample_node "n2" (broker.Reply (mkProduceResponse [41%N; 42%N])))
    _ eq_refl eq_refl eq_refl _)); simpl; discriminate.
Defined.

(** ** The recovery scan: redelivery and the mark it writes *)

Section Redelivery.

Import broker.

Lemma countDelivery_count state :
  DeliveryCount (countDelivery state) = wrap_uint32 (DeliveryCount state + 1).
Proof. unfold countDelivery. destruct (_ <=? _); reflexivity. Qed.

Lemma countDelivery_kind state :
  Kind (countDelivery state) =
  if MaxRedeliveryCount <=? wrap_uint32 (DeliveryCount state + 1)
  then MarkKind_Acknowledged else Kind state.
Proof. unfold countDelivery. simpl. destruct (_ <=? _); reflexivity. Qed.

Lemma countDelivery_no_wrap state :
  0 <= DeliveryCount state < max_uint32 ->
  DeliveryCount (countDelivery state) = DeliveryCount state + 1.
Proof.
  intros Hc. rewrite countDelivery_count. apply wrap_uint32_small.
  unfold max_uint32 in *. lia.
Qed.

Variable sv : Services.
Variable c : ConsumerGroup.
Variable m : Message.

Lemma redeliver_first markedMsg state :
  Kind state = MarkKind_Unknown ->
  redeliver sv c m markedMsg state =
  ([Deliver m;
    CallMark (markRequest c (Offset_ m) (Some (mkMarkState MarkKind_Consumed 1)))],
   Mark sv (markRequest c (Offset_ m) (Some (mkMarkState MarkKind_Consumed 1)))).
Proof. intros Hk. unfold redeliver. now rewrite decide_True. Qed.

Lemma redeliver_again mm state v :
  Kind state <> MarkKind_Unknown ->
  Marshal sv (countDelivery state) = inr v ->
  redeliver sv c m (Some mm) state =
  ([Deliver m;
    CallProduce (markProduce sv m mm (countDelivery state) v);
    CallProduce (deathProduce c m)],
   waitBoth (ProduceResult sv (markProduce sv m mm (countDelivery state) v))
            (ProduceResult sv (deathProduce c m))).
Proof.
  intros Hk Hv. unfold redeliver. rewrite decide_False by assumption.
  now rewrite Hv.
Qed.

End Redelivery.

(** On every redelivery of a message whose mark is not Unknown the scan
    republishes it on the dead-letter channel, whatever the count. *)
Lemma redeliver_dead_letters_always sv c m mm state v :
  Kind state <> MarkKind_Unknown ->
  broker.Marshal sv (broker.countDelivery state) = inr v ->
  broker.CallProduce (deathProduce c m) ∈ fst (broker.redeliver sv c m (Some mm) state).
Proof.
  intros Hk Hv. rewrite (redeliver_again sv c m mm state v Hk Hv). simpl.
  set_solver.
Qed.

(** The kind turns to Acknowledged exactly when the stepped count has
    reached [MaxRedeliveryCount]. *)
Lemma countDelivery_acknowledges state :
  Kind state <> MarkKind_Acknowledged ->
  Kind (broker.countDelivery state) = MarkKind_Acknowledged <->
  broker.MaxRedeliveryCount <= DeliveryCount (broker.countDelivery state).
Proof.
  intros Hk. rewrite countDelivery_kind, countDelivery_count.
  destruct (Z.leb_spec broker.MaxRedeliveryCount
              (wrap_uint32 (DeliveryCount state + 1))); split; try lia; congruence.
Qed.

(** C1, at a failing input. A message delivered once (mark Consumed,
    count 1) and found again 25 seconds after it was produced is
    redelivered; the count goes to 2, below [MaxRedeliveryCount], and the
    kind stays Consumed, yet the scan produces the message on the
    dead-letter channel. Left unacknowledged through six consume loops the
    message is put on the dead-letter channel four times. *)
Theorem dead_letter_below_limit :
  let m := sample_message 7%N 0 in
  let state := mkMarkState MarkKind_Consumed 1 in
  broker.shouldRedeliver 25000000000 m state = true /\
  broker.countDelivery state = mkMarkState MarkKind_Consumed 2 /\
  2 < broker.MaxRedeliveryCount /\
  snd (broker.recoveryCallback (sample_services (Some state)) sample_group 0%N
         25000000000 (broker.mkScanVars None false 0) m) = None /\
  filter (fun e => isDeathProduce e = true)
    (snd (fst (broker.recoveryCallback (sample_services (Some state)) sample_group 0%N
                 25000000000 (broker.mkScanVars None false 0) m))) =
  [broker.CallProduce (deathProduce sample_group m)] /\
  length (filter (fun e => isDeathProduce e = true)
            (concat (unacked_rounds 6 100000000000 m None))) = 4%nat.
Proof. vm_compute. repeat split. Qed.

(** C8 (as amended). The recovery scan writes a mark with a smaller
    DeliveryCount than the one read in two cases only. A message whose
    prior state has kind Unknown is written as (Consumed, 1) through
    [Mark] whatever count that state carries, so the count does not go
    down exactly when the prior count is 0 or 1. Every other redelivery
    writes, through the offsets topic, the prior DeliveryCount incremented
    by one modulo 2^32, so the count does not go down exactly when the
    prior count is below the [uint32] maximum 4294967295, where the
    increment wraps to 0. *)
Theorem redelivery_steps_delivery_count (sv : broker.Services)
    (c : broker.ConsumerGroup) (m : Message) (markedMsg : option Message)
    (state : MarkState) :
  0 <= DeliveryCount state <= max_uint32 ->
  (Kind state = MarkKind_Unknown ->
   fst (broker.redeliver sv c m markedMsg state) =
   [broker.Deliver m;
    broker.CallMark
      (broker.markRequest c (Offset_ m) (Some (mkMarkState MarkKind_Consumed 1)))] /\
   (DeliveryCount state <= DeliveryCount (mkMarkState MarkKind_Consumed 1) <->
    DeliveryCount state <= 1)) /\
  (Kind state <> MarkKind_Unknown ->
   forall mm v,
     markedMsg = Some mm ->
     broker.Marshal sv (broker.countDelivery state) = inr v ->
     fst (broker.redeliver sv c m markedMsg state) =
     [broker.Deliver m;
      broker.CallProduce (markProduce sv m mm (broker.countDelivery state) v);
      broker.CallProduce (deathProduce c m)] /\
     DeliveryCount (broker.countDelivery state) =
     wrap_uint32 (DeliveryCount state + 1) /\
     (DeliveryCount state <= DeliveryCount (broker.countDelivery state) <->
      DeliveryCount state < max_uint32) /\
     (DeliveryCount state < max_uint32 ->
      DeliveryCount (broker.countDelivery state) = DeliveryCount state + 1)).
Proof.
  intros Hc. split.
  - intros Hk. rewrite (redeliver_first sv c m markedMsg state Hk). simpl.
    split; [reflexivity | tauto].
  - intros Hk mm v -> Hv. rewrite (redeliver_again sv c m mm state v Hk Hv).
    split; [reflexivity|]. split; [apply countDelivery_count|].
    split; [|intros Hlt; apply countDelivery_no_wrap; lia].
    destruct (decide (DeliveryCount state = max_uint32)) as [Hmax|Hnmax].
    + rewrite countDelivery_count, Hmax.
      change (wrap_uint32 (max_uint32 + 1)) with 0. unfold max_uint32. lia.
    + rewrite countDelivery_no_wrap by lia. lia.
Qed.

(** A mark (Consumed, 1) read on redelivery is written back as
    (Consumed, 2); a mark (Unknown, 0) is written as (Consumed, 1). *)
Lemma redelivery_steps_delivery_count_witness :
  (DeliveryCount (broker.countDelivery (mkMarkState MarkKind_Consumed 1)) = 1 + 1 /\
   1 <= DeliveryCount (broker.countDelivery (mkMarkState MarkKind_Consumed 1))) /\
  fst (broker.redeliver (sample_services None) sample_group (sample_message 7%N 0)
         None (mkMarkState MarkKind_Unknown 0)) =
  [broker.Deliver (sample_message 7%N 0);
   broker.CallMark
     (broker.markRequest sample_group 7%N (Some (mkMarkState MarkKind_Consumed 1)))].
Proof.
  split.
  - pose proof (redelivery_steps_delivery_count
      (sample_services (Some (mkMarkState MarkKind_Consumed 1))) sample_group
      (sample_message 7%N 0) (Some (sample_mark (mkMarkState MarkKind_Consumed 1)))
      (mkMarkState MarkKind_Consumed 1)) as H.
    destruct H as [_ H]; [vm_compute; split; discriminate |].
    destruct (H ltac:(discriminate) _ _ eq_refl eq_refl) as (_ & _ & Hiff & Hstep).
    split; [apply Hstep; reflexivity | apply Hiff; reflexivity].
  - pose proof (redelivery_steps_delivery_count (sample_services None) sample_group
      (sample_message 7%N 0) None (mkMarkState MarkKind_Unknown 0)) as H.
    destruct H as [H _]; [vm_compute; split; discriminate |].
    exact (proj1 (H eq_refl)).
Defined.

(** C8 (as stated) fails: a message marked NotAcknowledged with
    DeliveryCount 4294967295 is redelivered, the [uint32] increment wraps,
    and the mark written carries count 0. *)
Lemma delivery_count_can_decrease :
  ~ (forall now m state,
       0 <= DeliveryCount state <= max_uint32 ->
       Kind state <> MarkKind_Unknown ->
       broker.shouldRedeliver now m state = true ->
       DeliveryCount state <= DeliveryCount (broker.countDelivery state)).
Proof.
  intros H.
  specialize (H 0 (sample_message 7%N 0)
                (mkMarkState MarkKind_NotAcknowledged 4294967295)).
  vm_compute in H. apply H; try discriminate; try reflexivity.
  split; discriminate.
Qed.

(** A mark of kind Unknown that carries a count is written back with
    count 1: the scan meets (Unknown, 7), delivers the message and marks
    it (Consumed, 1). *)
Example unknown_mark_resets_delivery_count :
  let prior := mkMarkState MarkKind_Unknown 7 in
  broker.shouldRedeliver 100000000000 (sample_message 7%N 0) prior = true /\
  last_written (Some prior)
    (snd (fst (broker.recoveryCallback (sample_services (Some prior)) sample_group 0%N
                 100000000000 (broker.mkScanVars None false 0) (sample_message 7%N 0)))) =
  Some (mkMarkState MarkKind_Consumed 1).
Proof. vm_compute. split; reflexivity. Qed.

(** The same input through the whole callback: the mark produced to the
    offsets topic decodes to (NotAcknowledged, 0). *)
Example delivery_count_wraps_in_scan :
  let prior := mkMarkState MarkKind_NotAcknowledged 4294967295 in
  last_written (Some prior)
    (snd (fst (broker.recoveryCallback (sample_services (Some prior)) sample_group 0%N
                 0 (broker.mkScanVars None false 0) (sample_message 7%N 0)))) =
  Some (mkMarkState MarkKind_NotAcknowledged 0).
Proof. vm_compute. reflexivity. Qed.

(** ** The dispatcher *)

Section Dispatcher.

Import broker.

Lemma pick_lookup i rs :
  rs <> [] -> 0 <= i ->
  pick i rs = rs !! Z.to_nat (i mod Z.of_nat (length rs)) /\
  is_Some (pick i rs).
Proof.
  intros Hne Hi. unfold pick, go_rem. rewrite decide_False by assumption.
  assert (0 < Z.of_nat (length rs)) as Hlen
    by (destruct rs; [congruence | simpl; lia]).
  rewrite Z.rem_mod_nonneg by lia.
  pose proof (Z.mod_pos_bound i _ Hlen) as Hb.
  destruct (Z.ltb_spec (i mod Z.of_nat (length rs)) 0) as [|_]; [lia|].
  split; [reflexivity|]. apply lookup_lt_is_Some_2. lia.
Qed.

Lemma pick_elem i rs r : pick i rs = Some r -> r ∈ rs.
Proof.
  unfold pick. destruct (decide (rs = [])); [discriminate|].
  destruct (_ <? 0); [discriminate|]. apply list_elem_of_lookup_2.
Qed.

Lemma removeFirst_split nm rs rs' :
  removeFirst nm rs = Some rs' ->
  exists l1 r0 l2,
    rs = l1 ++ r0 :: l2 /\ rs' = l1 ++ l2 /\ name r0 = nm /\
    Forall (fun x => name x <> nm) l1.
Proof.
  revert rs'. induction rs as [|r rest IH]; intros rs'; simpl; [discriminate|].
  destruct (decide (name r = nm)) as [Heq|Hne].
  - intros [= <-]. exists [], r, rest. auto.
  - destruct (removeFirst nm rest) as [rest'|]; [|discriminate].
    intros [= <-]. destruct (IH rest' eq_refl) as (l1 & r0 & l2 & -> & -> & Hn & Hl1).
    exists (r :: l1), r0, l2. repeat split; auto.
Qed.

Lemma removeFirst_found nm rs :
  (exists r, r ∈ rs /\ name r = nm) -> is_Some (removeFirst nm rs).
Proof.
  intros (r & Hin & Hn). induction rs as [|r0 rest IH]; [inversion Hin|].
  simpl. destruct (decide (name r0 = nm)); [eauto|].
  apply elem_of_cons in Hin as [->|Hin]; [congruence|].
  destruct (IH Hin) as [rest' ->]. simpl. eauto.
Qed.

Lemma NoDup_names_eq (rs : list receiver) x y :
  NoDup (name <$> rs) -> x ∈ rs -> y ∈ rs -> name x = name y -> x = y.
Proof.
  induction rs as [|r rest IH]; intros Hnd Hx Hy Hn; [inversion Hx|].
  rewrite fmap_cons in Hnd. apply NoDup_cons in Hnd as [Hr Hnd].
  apply elem_of_cons in Hx as [->|Hx]; apply elem_of_cons in Hy as [->|Hy].
  - reflexivity.
  - exfalso. apply Hr. rewrite Hn. now apply list_elem_of_fmap_2.
  - exfalso. apply Hr. rewrite <- Hn. now apply list_elem_of_fmap_2.
  - now apply IH.
Qed.

(** Removing by name a receiver of a group whose names are distinct
    removes that very receiver and keeps the others in order. *)
Lemma removeConsumer_member c r :
  NoDup (name <$> receivers c) -> r ∈ receivers c ->
  exists c',
    removeConsumer c (name r) = (c', true) /\
    (r ∉ receivers c') /\
    (receivers c' `sublist_of` receivers c) /\
    S (length (receivers c')) = length (receivers c) /\
    NoDup (name <$> receivers c').
Proof.
  intros Hnd Hin. unfold removeConsumer.
  destruct (removeFirst_found (name r) (receivers c)) as [rs' Hrs']; [eauto|].
  rewrite Hrs'. eexists. split; [reflexivity|]. simpl.
  destruct (removeFirst_split _ _ _ Hrs') as (l1 & r0 & l2 & Hrs & -> & Hn & Hl1).
  assert (r0 = r) as ->.
  { apply (NoDup_names_eq (receivers c)); auto. rewrite Hrs. set_solver. }
  rewrite Hrs in Hnd |- *. rewrite fmap_app, fmap_cons in Hnd.
  apply NoDup_app in Hnd as (Hnd1 & Hdisj & Hnd2).
  apply NoDup_cons in Hnd2 as [Hr2 Hnd2].
  repeat split.
  - intros Hmem. apply elem_of_app in Hmem as [Hmem|Hmem].
    + apply (Hdisj (name r)); [now apply list_elem_of_fmap_2 | left].
    + apply Hr2. now apply list_elem_of_fmap_2.
  - apply sublist_app; [reflexivity | now apply sublist_cons].
  - rewrite !length_app. simpl. lia.
  - rewrite fmap_app. apply NoDup_app. repeat split; auto.
    intros x Hx1 Hx2. apply (Hdisj x Hx1). now right.
Qed.

Variable c : ConsumerGroup.
Variable i : Z.
Hypothesis names_distinct : NoDup (name <$> receivers c).
Hypothesis some_receiver : receivers c <> [].
Hypothesis counter_range : 0 <= i < max_int64.

Lemma step_counter : wrap_int64 (i + 1) = i + 1.
Proof. apply wrap_int64_small. unfold max_int64 in *. lia. Qed.

Lemma selectreceiver_sent r rest :
  pick (i + 1) (receivers c) = Some r ->
  selectreceiver i c (MsgSent :: rest) = Delivered (i + 1) c r rest.
Proof. intros Hr. simpl. now rewrite step_counter, Hr. Qed.

Lemma selectreceiver_done r rest :
  pick (i + 1) (receivers c) = Some r ->
  exists c',
    removeConsumer c (name r) = (c', true) /\
    (r ∉ receivers c') /\
    (receivers c' `sublist_of` receivers c) /\
    S (length (receivers c')) = length (receivers c) /\
    NoDup (name <$> receivers c') /\
    selectreceiver i c (DoneFired :: rest) =
    if decide (length (receivers c') = 0%nat) then BreakLoop (i + 1) c' rest
    else selectreceiver (i + 1) c' rest.
Proof.
  intros Hr.
  destruct (removeConsumer_member c r names_distinct (pick_elem _ _ _ Hr))
    as (c' & Hrm & Hnot & Hsub & Hlen & Hnd).
  exists c'. repeat split; auto.
  simpl. now rewrite step_counter, Hr, Hrm.
Qed.

End Dispatcher.

(** C3 (as amended). In the dispatcher's round-robin the counter [i] is
    incremented on every pass through the label [selectreceiver], once when
    a message is taken and once more on each retry, and each pass selects
    [receivers[i mod len(receivers)]] of the list as it then stands. If the
    selected receiver's done channel fires first the receiver is removed;
    when receivers remain the retry increments [i] again and picks, from
    the remaining list, a receiver other than the one removed; when none
    remains the loop exits. *)
Theorem selectreceiver_round_robin (c : broker.ConsumerGroup) (i : Z) :
  NoDup (broker.name <$> broker.receivers c) ->
  broker.receivers c <> [] ->
  0 <= i -> i + 2 <= max_int64 ->
  exists r,
    broker.receivers c !! Z.to_nat ((i + 1) mod Z.of_nat (length (broker.receivers c)))
    = Some r /\
    (forall rest,
       broker.selectreceiver i c (broker.MsgSent :: rest) =
       broker.Delivered (i + 1) c r rest) /\
    exists c',
      broker.removeConsumer c (broker.name r) = (c', true) /\
      (r ∉ broker.receivers c') /\
      (broker.receivers c' `sublist_of` broker.receivers c) /\
      S (length (broker.receivers c')) = length (broker.receivers c) /\
      (length (broker.receivers c') = 0%nat ->
       forall rest,
         broker.selectreceiver i c (broker.DoneFired :: rest) =
         broker.BreakLoop (i + 1) c' rest) /\
      (length (broker.receivers c') <> 0%nat ->
       exists r',
         broker.receivers c'
           !! Z.to_nat ((i + 2) mod Z.of_nat (length (broker.receivers c'))) = Some r' /\
         r' <> r /\ r' ∈ broker.receivers c /\
         forall rest,
           broker.selectreceiver i c (broker.DoneFired :: broker.MsgSent :: rest) =
           broker.Delivered (i + 2) c' r' rest).
Proof.
  intros Hnd Hne Hi Hmax.
  assert (0 <= i < max_int64) as Hrange by lia.
  destruct (pick_lookup (i + 1) (broker.receivers c) Hne ltac:(lia)) as [Hpick [r Hr]].
  exists r. split; [now rewrite <- Hpick|].
  split; [intros rest; now apply selectreceiver_sent|].
  destruct (selectreceiver_done c i Hnd Hrange r [] Hr)
    as (c' & Hrm & Hnot & Hsub & Hlen & Hnd' & _).
  exists c'. repeat split; auto.
  - intros Hzero rest.
    destruct (selectreceiver_done c i Hnd Hrange r rest Hr)
      as (c2 & Hrm2 & _ & _ & _ & _ & Hsel).
    rewrite Hrm in Hrm2. injection Hrm2 as <-.
    now rewrite Hsel, decide_True.
  - intros Hnz.
    assert (broker.receivers c' <> []) as Hne' by (destruct (broker.receivers c'); auto).
    destruct (pick_lookup (i + 1 + 1) (broker.receivers c') Hne' ltac:(lia))
      as [Hpick' [r' Hr']].
    replace (i + 1 + 1) with (i + 2) in * by lia.
    exists r'. split; [now rewrite <- Hpick'|].
    assert (r' ∈ broker.receivers c') as Hin' by now apply pick_elem in Hr'.
    split; [intros ->; contradiction|].
    split; [now apply (elem_of_sublist _ _ _ Hin' Hsub)|].
    intros rest.
    destruct (selectreceiver_done c i Hnd Hrange r (broker.MsgSent :: rest) Hr)
      as (c2 & Hrm2 & _ & _ & _ & _ & Hsel).
    rewrite Hrm in Hrm2. injection Hrm2 as <-.
    rewrite Hsel, decide_False by assumption.
    replace (i + 2) with (i + 1 + 1) by lia.
    apply selectreceiver_sent; [unfold max_int64 in *; lia|].
    now replace (i + 1 + 1) with (i + 2) by lia.
Qed.

(** With alice, bob and carol attached and the counter at 0, bob is
    selected first; if his done channel fires, the retry steps the counter
    to 2 and alice gets the message. *)
Lemma selectreceiver_round_robin_witness :
  broker.selectreceiver 0 (group_of [alice; bob; carol])
    [broker.DoneFired; broker.MsgSent] =
  broker.Delivered 2 (group_of [alice; carol]) alice [].
Proof.
  destruct (selectreceiver_round_robin (group_of [alice; bob; carol]) 0)
    as (r & Hr & _ & c' & Hrm & _ & _ & _ & _ & Hretry).
  - apply (bool_decide_unpack _). vm_compute. exact I.
  - discriminate.
  - lia.
  - vm_compute. discriminate.
  - injection Hr as <-. injection Hrm as <-.
    destruct Hretry as (r' & Hr' & _ & _ & Hsel); [discriminate|].
    injection Hr' as <-. apply Hsel.
Defined.

(** C3 (as stated) fails: the retry passes the label again, and the label
    stands before [i++], so one message whose first receiver has gone
    steps the counter twice. *)
Lemma retry_increments_again :
  ~ (forall i c sched i' c' r rest,
       0 <= i -> i + 2 <= max_int64 ->
       NoDup (broker.name <$> broker.receivers c) ->
       broker.selectreceiver i c sched = broker.Delivered i' c' r rest ->
       i' = i + 1).
Proof.
  intros H.
  specialize (H 0 (group_of [alice; bob; carol]) [broker.DoneFired; broker.MsgSent]
                2 (group_of [alice; carol]) alice []).
  assert (2 = 0 + 1) as Habs; [|discriminate Habs].
  apply H; try reflexivity; try (vm_compute; discriminate).
  apply (bool_decide_unpack _). vm_compute. exact I.
Qed.

(** In the earlier revision the label stands after the counter: a pass
    through [selectreceiver], retries included, leaves [i] as it was, and
    the loop steps it once per dispatched message. *)
Lemma broker0_selectreceiver_keeps_counter sched : forall i c,
  match broker0.selectreceiver i c sched with
  | broker.Delivered i' _ _ _ | broker.FellThrough i' _ _
  | broker.BreakLoop i' _ _ | broker.Blocked i' _ => i' = i
  | broker.Panicked => True
  end.
Proof.
  induction sched as [|ev sched IH]; intros i c; simpl.
  - destruct (broker.pick i (broker.receivers c)); exact eq_refl || exact I.
  - destruct (broker.pick i (broker.receivers c)) as [r|]; [|exact I].
    destruct ev; [|reflexivity].
    destruct (broker.removeConsumer c (broker.name r)) as [c' [|]]; [|reflexivity].
    destruct (decide (length (broker.receivers c') = 0%nat)); [reflexivity|].
    apply IH.
Qed.

Section DispatchLoop.

Import broker.

(** Every way a pass from the label can end, for a group with distinct
    names and at least one receiver: after [k] removals the counter has
    moved [k + 1] times. *)
Lemma selectreceiver_outcome sched : forall c i,
  NoDup (name <$> receivers c) ->
  receivers c <> [] ->
  0 <= i -> i + Z.of_nat (length (receivers c)) <= max_int64 ->
  match selectreceiver i c sched with
  | Delivered i' c' r rest =>
      (exists k : nat,
         sched = replicate k DoneFired ++ MsgSent :: rest /\
         i' = i + 1 + Z.of_nat k /\
         (length (receivers c') + k = length (receivers c))%nat) /\
      NoDup (name <$> receivers c') /\
      pick i' (receivers c') = Some r
  | BreakLoop i' c' rest =>
      receivers c' = [] /\
      i' = i + Z.of_nat (length (receivers c)) /\
      sched = replicate (length (receivers c)) DoneFired ++ rest
  | Blocked i' c' =>
      exists k : nat,
        sched = replicate k DoneFired /\ (k < length (receivers c))%nat
  | FellThrough _ _ _ | Panicked => False
  end.
Proof.
  induction sched as [|ev sched IH]; intros c i Hnd Hne Hi Hmax.
  - assert (0 < Z.of_nat (length (receivers c))) as Hlen
      by (destruct (receivers c); [congruence | simpl; lia]).
    destruct (pick_lookup (i + 1) (receivers c) Hne ltac:(lia)) as [_ [r Hr]].
    simpl. rewrite wrap_int64_small by (unfold max_int64 in *; lia).
    rewrite Hr. exists 0%nat. split; [reflexivity | lia].
  - assert (0 < Z.of_nat (length (receivers c))) as Hlen
      by (destruct (receivers c); [congruence | simpl; lia]).
    assert (0 <= i < max_int64) as Hrange by lia.
    destruct (pick_lookup (i + 1) (receivers c) Hne ltac:(lia)) as [_ [r Hr]].
    destruct ev.
    + destruct (selectreceiver_done c i Hnd Hrange r sched Hr)
        as (c' & Hrm & Hnot & Hsub & Hlen' & Hnd' & ->).
      destruct (decide (length (receivers c') = 0%nat)) as [Hz|Hnz].
      * split; [now apply length_zero_iff_nil|].
        rewrite <- Hlen', Hz. simpl. split; [lia | reflexivity].
      * assert (receivers c' <> []) as Hne'
          by (destruct (receivers c'); [contradiction | discriminate]).
        specialize (IH c' (i + 1) Hnd' Hne' ltac:(lia) ltac:(lia)).
        destruct (selectreceiver (i + 1) c' sched) as [i' c2 r2 rest|?|i' c2 rest|i' c2|];
          try contradiction.
        -- destruct IH as ((k & -> & -> & Hk) & Hnd2 & Hp2).
           split; [|split; assumption].
           exists (S k). split; [reflexivity|]. split; lia.
        -- destruct IH as (Hnil & -> & ->). split; [assumption|].
           rewrite <- Hlen'. split; [lia | reflexivity].
        -- destruct IH as (k & -> & Hk). exists (S k). split; [reflexivity | lia].
    + rewrite (selectreceiver_sent c i Hrange r sched Hr).
      split; [|split; assumption].
      exists 0%nat. split; [reflexivity | lia].
Qed.

(** How the dispatcher can end, and what the variable [m] then holds:
    when the channel is closed every message went to a receiver and [m]
    is the last of them; when the last receiver has gone, or the select
    stays blocked, [m] is a message that went to no receiver. *)
Lemma dispatchLoop_outcome inCh : forall i c m sched sent,
  NoDup (name <$> receivers c) ->
  receivers c <> [] ->
  0 <= i ->
  i + Z.of_nat (length inCh + length (receivers c)) <= max_int64 ->
  let res := dispatchLoop i c m inCh sched sent in
  match ending res with
  | ChannelClosed =>
      lr_m res = from_option Some m (last inCh) /\
      snd <$> dispatched res = (snd <$> sent) ++ inCh
  | NoReceiverLeft | StaysBlocked =>
      exists before pending after,
        inCh = before ++ pending :: after /\
        lr_m res = Some pending /\
        snd <$> dispatched res = (snd <$> sent) ++ before
  | StoppedOnError | Panics => False
  end.
Proof.
  induction inCh as [|msg inCh IH]; intros i c m sched sent Hnd Hne Hi Hmax.
  - simpl. split; [reflexivity | now rewrite app_nil_r].
  - simpl dispatchLoop.
    pose proof (selectreceiver_outcome sched c i Hnd Hne Hi
                  ltac:(simpl length in Hmax; lia)) as Hsel.
    destruct (selectreceiver i c sched) as [i' c' r rest|?|i' c' rest|i' c'|];
      try contradiction.
    + destruct Hsel as ((k & _ & -> & Hk) & Hnd' & Hp).
      assert (receivers c' <> []) as Hne'
        by (intros Hnil; rewrite Hnil in Hp; discriminate).
      specialize (IH (i + 1 + Z.of_nat k) c' (Some msg) rest (sent ++ [(r, msg)])
                    Hnd' Hne' ltac:(lia) ltac:(simpl length in Hmax; lia)).
      cbv zeta in IH |- *.
      destruct (ending (dispatchLoop _ c' (Some msg) inCh rest _)) eqn:Hend;
        try contradiction.
      * destruct IH as [Hm Hd]. split.
        -- rewrite Hm. destruct inCh as [|x xs]; [reflexivity|].
           change (last (msg :: x :: xs)) with (last (x :: xs)).
           rewrite last_cons. now destruct (last xs).
        -- rewrite Hd, fmap_app, <- app_assoc. reflexivity.
      * destruct IH as (before & pending & after & -> & Hm & Hd).
        exists (msg :: before), pending, after. split; [reflexivity|].
        split; [assumption|]. rewrite Hd, fmap_app, <- app_assoc. reflexivity.
      * destruct IH as (before & pending & after & -> & Hm & Hd).
        exists (msg :: before), pending, after. split; [reflexivity|].
        split; [assumption|]. rewrite Hd, fmap_app, <- app_assoc. reflexivity.
    + simpl. exists [], msg, inCh. split; [reflexivity|].
      split; [reflexivity | now rewrite app_nil_r].
    + simpl. exists [], msg, inCh. split; [reflexivity|].
      split; [reflexivity | now rewrite app_nil_r].
Qed.

End DispatchLoop.

(** When the channel is closed under the dispatcher, the offset marked
    consumed is that of the last message dispatched, unless it is the
    starting watermark. *)
Lemma consumeLoop_closed_marks_last c lastConsumed inCh sched last_msg :
  NoDup (broker.name <$> broker.receivers c) ->
  broker.receivers c <> [] ->
  Z.of_nat (length inCh + length (broker.receivers c)) <= max_int64 ->
  last inCh = Some last_msg ->
  broker.ending (fst (broker.consumeLoop c lastConsumed inCh sched)) = broker.ChannelClosed ->
  last (snd <$> broker.dispatched (fst (broker.consumeLoop c lastConsumed inCh sched)))
  = Some last_msg /\
  snd (broker.consumeLoop c lastConsumed inCh sched) =
  if Offset_Equal (Offset_ last_msg) lastConsumed then None else Some (Offset_ last_msg).
Proof.
  intros Hnd Hne Hmax Hlast Hend. unfold broker.consumeLoop in *. simpl in *.
  pose proof (dispatchLoop_outcome inCh 0 c None sched [] Hnd Hne ltac:(lia)
                ltac:(lia)) as H.
  simpl in H. rewrite Hend in H. destruct H as [Hm Hd].
  rewrite Hd, Hm, Hlast. simpl. split; [reflexivity|].
  now destruct (Offset_Equal (Offset_ last_msg) lastConsumed).
Qed.

(** C2, at a failing input. One receiver, alice, is attached and the
    watermark stands at offset 0. First: one message, at offset 7, arrives
    and alice's done channel fires before the send; alice is removed, the
    loop breaks with the message in hand, nothing has gone to any
    receiver, and offset 7 is marked consumed. Second: offset 7 goes to
    alice, then her done channel fires on offset 8; the last offset
    dispatched is 7, and 8 is what gets marked. *)
Theorem undispatched_message_marked_consumed :
  let m7 := sample_message 7%N 0 in
  let m8 := sample_message 8%N 0 in
  broker.consumeLoop (group_of [alice]) 0%N [m7] [broker.DoneFired] =
  (broker.mkLoopResult broker.NoReceiverLeft 1 (group_of []) (Some m7) [],
   Some 7%N) /\
  broker.consumeLoop (group_of [alice]) 0%N [m7; m8]
    [broker.MsgSent; broker.DoneFired] =
  (broker.mkLoopResult broker.NoReceiverLeft 2 (group_of []) (Some m8) [(alice, m7)],
   Some 8%N).
Proof. vm_compute. split; reflexivity. Qed.

(** The branch of [redeliver] that would dereference a nil mark message is
    never taken by the callback: without a mark message the state is the
    zero value, whose kind is Unknown. *)
Lemma redeliver_without_mark sv c m :
  broker.redeliver sv c m None MarkState_zero =
  ([broker.Deliver m;
    broker.CallMark
      (broker.markRequest c (Offset_ m) (Some (mkMarkState MarkKind_Consumed 1)))],
   broker.Mark sv
     (broker.markRequest c (Offset_ m) (Some (mkMarkState MarkKind_Consumed 1)))).
Proof. reflexivity. Qed.

(** The marks six successive consume loops leave for one message that is
    never acknowledged: the count climbs by one per redelivery, the kind
    turns to Acknowledged at [MaxRedeliveryCount], and the sixth loop,
    finding it so, writes nothing. *)
Example marks_over_unacked_rounds :
  last_written None <$> unacked_rounds 6 100000000000 (sample_message 7%N 0) None =
  [Some (mkMarkState MarkKind_Consumed 1);
   Some (mkMarkState MarkKind_Consumed 2);
   Some (mkMarkState MarkKind_Consumed 3);
   Some (mkMarkState MarkKind_Consumed 4);
   Some (mkMarkState MarkKind_Acknowledged 5);
   None].
Proof. vm_compute. reflexivity. Qed.

(** * Further properties of the storage back ends *)

(** ** Key order and iteration *)

Section KeyOrder.

Import storage.

Lemma byte_to_N_inj x y : Byte.to_N x = Byte.to_N y -> x = y.
Proof.
  intros H. apply (f_equal Byte.of_N) in H.
  rewrite !Byte.of_to_N in H. congruence.
Qed.

Lemma key_leb_refl a : key_leb a a = true.
Proof.
  induction a as [|x a IH]; [reflexivity|]. simpl.
  rewrite N.ltb_irrefl, N.eqb_refl. exact IH.
Qed.

Lemma key_leb_total a : forall b, key_leb a b = true \/ key_leb b a = true.
Proof.
  induction a as [|x a IH]; intros [|y b]; simpl; auto.
  destruct (N.ltb_spec (Byte.to_N x) (Byte.to_N y)); [auto|].
  destruct (N.ltb_spec (Byte.to_N y) (Byte.to_N x)); [auto|].
  assert (Byte.to_N x = Byte.to_N y) as Heq by lia.
  rewrite Heq, N.eqb_refl. apply IH.
Qed.

Lemma key_leb_trans a : forall b c,
  key_leb a b = true -> key_leb b c = true -> key_leb a c = true.
Proof.
  induction a as [|x a IH]; intros [|y b] [|z c]; simpl; auto; try discriminate.
  destruct (N.ltb_spec (Byte.to_N x) (Byte.to_N y)) as [Hxy|Hxy].
  - intros _.
    destruct (N.ltb_spec (Byte.to_N y) (Byte.to_N z)) as [Hyz|Hyz].
    + intros _. destruct (N.ltb_spec (Byte.to_N x) (Byte.to_N z)); [reflexivity | lia].
    + destruct (N.eqb_spec (Byte.to_N y) (Byte.to_N z)) as [Heq|]; [|discriminate].
      intros _. destruct (N.ltb_spec (Byte.to_N x) (Byte.to_N z)); [reflexivity | lia].
  - destruct (N.eqb_spec (Byte.to_N x) (Byte.to_N y)) as [Hxy'|]; [|discriminate].
    intros Hab. rewrite Hxy'.
    destruct (N.ltb_spec (Byte.to_N y) (Byte.to_N z)); [reflexivity|].
    destruct (N.eqb_spec (Byte.to_N y) (Byte.to_N z)); [|discriminate].
    now apply IH.
Qed.


#[local] Instance key_le_total : Total key_le.
Proof. intros a b. apply key_leb_total. Qed.

#[local] Instance key_le_trans : Transitive key_le.
Proof. intros a b c. apply key_leb_trans. Qed.

Lemma hasPrefix_nil key : hasPrefix key [] = true.
Proof. destruct key; reflexivity. Qed.

(** Keys that carry a prefix form an interval of the order. *)
Lemma hasPrefix_between prefix : forall lo k hi,
  hasPrefix lo prefix = true -> hasPrefix hi prefix = true ->
  key_leb lo k = true -> key_leb k hi = true ->
  hasPrefix k prefix = true.
Proof.
  induction prefix as [|p prefix IH]; intros lo k hi; [intros; apply hasPrefix_nil|].
  destruct lo as [|l lo]; [discriminate|]. destruct hi as [|h hi]; [discriminate|].
  simpl. destruct (decide (p = l)) as [<-|]; [|discriminate].
  destruct (decide (p = h)) as [<-|]; [|discriminate].
  intros Hlo Hhi. destruct k as [|x k]; [discriminate|]. simpl.
  destruct (N.ltb_spec (Byte.to_N p) (Byte.to_N x)) as [Hpx|Hpx].
  - intros _. destruct (N.ltb_spec (Byte.to_N x) (Byte.to_N p)); [lia|].
    destruct (N.eqb_spec (Byte.to_N x) (Byte.to_N p)); [lia | discriminate].
  - destruct (N.eqb_spec (Byte.to_N p) (Byte.to_N x)) as [Heq|]; [|discriminate].
    apply byte_to_N_inj in Heq as <-.
    rewrite N.ltb_irrefl, N.eqb_refl, decide_True by reflexivity.
    intros H1 H2. exact (IH lo k hi Hlo Hhi H1 H2).
Qed.

Lemma elem_of_sortedKeys {A : Type} (t : gmap bytes A) k : k ∈ sortedKeys t <-> is_Some (t !! k).
Proof.
  unfold sortedKeys. rewrite merge_sort_Permutation, list_elem_of_fmap. split.
  - intros ([k' v] & -> & Hin). apply elem_of_map_to_list in Hin. simpl. eauto.
  - intros [v Hv]. exists (k, v). split; [reflexivity|]. now apply elem_of_map_to_list.
Qed.

Lemma sortedKeys_sorted {A : Type} (t : gmap bytes A) : StronglySorted key_le (sortedKeys t).
Proof. apply StronglySorted_merge_sort; apply _. Qed.

Lemma seek_suffix min keys : seek min keys `suffix_of` keys.
Proof.
  induction keys as [|k rest IH]; simpl; [reflexivity|].
  destruct (key_leb min k); [reflexivity|]. now apply suffix_cons_r.
Qed.

Lemma seek_keeps min keys k :
  k ∈ keys -> key_leb min k = true -> k ∈ seek min keys.
Proof.
  intros Hin Hle. induction keys as [|h rest IH]; [inversion Hin|]. simpl.
  destruct (key_leb min h) eqn:Hh; [assumption|].
  apply elem_of_cons in Hin as [->|Hin]; [congruence | auto].
Qed.

Lemma seek_above min keys k :
  StronglySorted key_le keys -> k ∈ seek min keys -> key_leb min k = true.
Proof.
  induction keys as [|h rest IH]; simpl; intros Hs Hin; [inversion Hin|].
  apply StronglySorted_inv in Hs as [Hrest Hall].
  destruct (key_leb min h) eqn:Hh; [|auto].
  apply elem_of_cons in Hin as [->|Hin]; [assumption|].
  rewrite Forall_forall in Hall. exact (key_leb_trans _ _ _ Hh (Hall k Hin)).
Qed.

Lemma seek_head_least min keys h rest k :
  StronglySorted key_le keys -> seek min keys = h :: rest -> k ∈ rest ->
  key_leb h k = true.
Proof.
  intros Hs Hseek Hin.
  assert (StronglySorted key_le (h :: rest)) as Hs'.
  { destruct (seek_suffix min keys) as [pre Hpre]. rewrite Hseek in Hpre.
    rewrite Hpre in Hs. now apply StronglySorted_app_1_r in Hs. }
  apply StronglySorted_inv in Hs' as [_ Hall].
  rewrite Forall_forall in Hall. now apply Hall.
Qed.

Lemma collect_prefixed prefix room : forall cursor k,
  k ∈ collect prefix room cursor -> k ∈ cursor /\ hasPrefix k prefix = true.
Proof.
  induction room as [|room IH]; intros [|h rest] k; simpl; try (intros H; now inversion H).
  - destruct (hasPrefix h prefix); intros H; inversion H.
  - destruct (hasPrefix h prefix) eqn:Hh; [|intros H; inversion H].
    intros Hin. apply elem_of_cons in Hin as [->|Hin].
    + split; [left | assumption].
    + destruct (IH rest k Hin). split; [now right | assumption].
Qed.

Lemma collect_length prefix room : forall cursor,
  (length (collect prefix room cursor) <= room)%nat.
Proof.
  induction room as [|room IH]; intros [|h rest]; simpl; try lia.
  - destruct (hasPrefix h prefix); simpl; lia.
  - destruct (hasPrefix h prefix); simpl; [|lia]. specialize (IH rest). lia.
Qed.

Lemma collect_nil prefix room cursor :
  collect prefix (S room) cursor = [] ->
  cursor = [] \/ exists h rest, cursor = h :: rest /\ hasPrefix h prefix = false.
Proof.
  destruct cursor as [|h rest]; [auto|]. simpl.
  destruct (hasPrefix h prefix) eqn:Hh; [discriminate|]. eauto.
Qed.

(** What one batch collects: keys of the table that carry the prefix and
    are not below [min]. *)
Lemma collect_seek_sound {A : Type} (t : gmap bytes A) prefix min room k :
  k ∈ collect prefix room (seek min (sortedKeys t)) ->
  is_Some (t !! k) /\ hasPrefix k prefix = true /\ key_leb min k = true.
Proof.
  intros Hin. apply collect_prefixed in Hin as [Hin Hp].
  split; [|split; [assumption|]].
  - apply elem_of_sortedKeys. destruct (seek_suffix min (sortedKeys t)) as [pre ->].
    apply elem_of_app. now right.
  - exact (seek_above _ _ _ (sortedKeys_sorted t) Hin).
Qed.

(** When a batch with room finds nothing, no key of the table at or above
    [min] carries the prefix, provided [min] carries it. *)
Lemma collect_seek_complete {A : Type} (t : gmap bytes A) prefix min room k :
  hasPrefix min prefix = true ->
  collect prefix (S room) (seek min (sortedKeys t)) = [] ->
  is_Some (t !! k) -> key_leb min k = true -> hasPrefix k prefix = false.
Proof.
  intros Hmin Hnil Hk Hle.
  destruct (hasPrefix k prefix) eqn:Hp; [exfalso | reflexivity].
  assert (k ∈ seek min (sortedKeys t)) as Hin
    by (apply seek_keeps; [now apply elem_of_sortedKeys | assumption]).
  apply collect_nil in Hnil as [Hnil | (h & rest & Hseek & Hh)].
  - rewrite Hnil in Hin. inversion Hin.
  - assert (key_leb min h = true) as Hmh.
    { apply (seek_above min (sortedKeys t)); [apply sortedKeys_sorted|].
      rewrite Hseek. left. }
    assert (key_leb h k = true) as Hhk.
    { rewrite Hseek in Hin. apply elem_of_cons in Hin as [->|Hin].
      - apply key_leb_refl.
      - exact (seek_head_least _ _ _ _ _ (sortedKeys_sorted t) Hseek Hin). }
    rewrite (hasPrefix_between prefix min h k Hmin Hp Hmh Hhk) in Hh. discriminate.
Qed.

End KeyOrder.




(** ** The badger back end: reads, batches, merged keys *)

Section BadgerStore.

Import storage badgerlib.

Lemma badger_Get_lookup db (key : bytes) :
  key <> [] ->
  badger.Get db key = (default [] (@lookup bytes bytes _ _ key (table db)), None).
Proof.
  intros Hne. unfold badger.Get, Txn_Get, NewTransaction. simpl.
  rewrite decide_False by assumption. rewrite lookup_empty.
  destruct (table db !! key); reflexivity.
Qed.

(** The empty key is refused, whatever the store holds. *)
Lemma badger_Get_empty_key db : badger.Get db [] = ([], Some ErrEmptyKey).
Proof. reflexivity. Qed.

Lemma modify_ok txn key w txn' :
  writable txn -> modify txn key w = (txn', None) ->
  key <> [] /\ writable txn' /\ snapshot txn' = snapshot txn /\
  pending txn' = <[key := w]> (pending txn).
Proof.
  intros [Hu Hd]. unfold modify. rewrite Hu, Hd. simpl.
  destruct (decide (key = [])); [discriminate|].
  destruct (txn_limits txn (writes txn) (key, w)); [discriminate|].
  intros [= <-]. repeat split; assumption.
Qed.

Lemma modify_empty_key txn w :
  writable txn -> modify txn [] w = (txn, Some ErrEmptyKey).
Proof. intros [Hu Hd]. unfold modify. now rewrite Hu, Hd. Qed.

Lemma setAll_ok entries : forall txn txn',
  writable txn -> badger.setAll txn entries = (txn', None) ->
  writable txn' /\ snapshot txn' = snapshot txn /\
  Forall (fun e => e_Key e <> []) entries /\
  forall k, pending txn' !! k =
            match lastPut entries k with
            | Some v => Some (Some v)
            | None => pending txn !! k
            end.
Proof.
  induction entries as [|e rest IH]; intros txn txn' Hw; simpl.
  - intros [= <-]. split; [assumption|]. split; [reflexivity|].
    split; [constructor | reflexivity].
  - unfold Txn_Set. destruct (modify txn (e_Key e) (Some (e_Value e))) as [txn1 [err|]] eqn:Hm;
      [discriminate|].
    destruct (modify_ok _ _ _ _ Hw Hm) as (Hne & Hw1 & Hs1 & Hp1).
    intros Hrest. destruct (IH txn1 txn' Hw1 Hrest) as (Hw' & Hs' & Hall & Hp').
    split; [assumption|]. split; [congruence|]. split; [now constructor|].
    intros k. rewrite Hp'. destruct (lastPut rest k); [reflexivity|].
    rewrite Hp1. destruct (decide (e_Key e = k)) as [->|Hne'].
    + now rewrite lookup_insert_eq.
    + now rewrite lookup_insert_ne.
Qed.

(** A batch that names the empty key does not go through. *)
Lemma setAll_empty_key entries : forall txn,
  writable txn ->
  Exists (fun e => e_Key e = []) entries ->
  exists txn' err, badger.setAll txn entries = (txn', Some err).
Proof.
  induction entries as [|e rest IH]; intros txn Hw Hex; [inversion Hex|].
  cbn [badger.setAll]. unfold Txn_Set.
  destruct (modify txn (e_Key e) (Some (e_Value e))) as [txn1 [err|]] eqn:Hm; [eauto|].
  destruct (modify_ok _ _ _ _ Hw Hm) as (Hne & Hw1 & _).
  apply Exists_cons in Hex as [Hex|Hex]; [contradiction|]. now apply IH.
Qed.

Lemma lastPut_unnamed entries k :
  Forall (fun e => e_Key e <> k) entries -> lastPut entries k = None.
Proof.
  induction 1 as [|e rest Hne _ IH]; [reflexivity|].
  simpl. rewrite IH. now rewrite decide_False.
Qed.

Lemma deleteAll_ok keys : forall txn txn',
  writable txn -> badger.deleteAll txn keys = (txn', None) ->
  writable txn' /\ snapshot txn' = snapshot txn /\
  forall k, pending txn' !! k =
            if decide (k ∈ keys) then Some None else pending txn !! k.
Proof.
  induction keys as [|key rest IH]; intros txn txn' Hw; cbn [badger.deleteAll].
  - intros [= <-]. split; [assumption|]. split; [reflexivity|].
    intros k. rewrite decide_False; [reflexivity|]. apply not_elem_of_nil.
  - unfold Txn_Delete. destruct (modify txn key None) as [txn1 [err|]] eqn:Hm; [discriminate|].
    destruct (modify_ok _ _ _ _ Hw Hm) as (Hne & Hw1 & Hs1 & Hp1).
    intros Hrest. destruct (IH txn1 txn' Hw1 Hrest) as (Hw' & Hs' & Hp').
    split; [assumption|]. split; [congruence|].
    intros k. rewrite Hp'. destruct (decide (k ∈ rest)) as [Hin|Hnin].
    + rewrite decide_True; [reflexivity | now right].
    + rewrite Hp1. destruct (decide (key = k)) as [->|Hne'].
      * rewrite lookup_insert_eq, decide_True; [reflexivity | left].
      * rewrite lookup_insert_ne by assumption.
        rewrite decide_False; [reflexivity|].
        intros Hin. apply elem_of_cons in Hin as [->|Hin]; contradiction.
Qed.

Lemma new_writable db : writable (NewTransaction db true).
Proof. split; reflexivity. Qed.

Lemma commit_lookup txn db db' k :
  writable txn -> Txn_Commit txn db = (db', None) ->
  table db' !! k = apply_write (pending txn !! k) (table db !! k).
Proof.
  intros [_ Hd]. unfold Txn_Commit. rewrite Hd. intros [= <-]. simpl.
  rewrite lookup_merge. destruct (pending txn !! k), (table db !! k); reflexivity.
Qed.

Lemma commit_ok txn db : writable txn -> snd (Txn_Commit txn db) = None.
Proof. intros [_ Hd]. unfold Txn_Commit. now rewrite Hd. Qed.

(** [BatchPut] either fails and hands the store back, or commits the
    writes of a transaction that took every entry. *)
Lemma BatchPut_cases db entries :
  (exists err, badger.BatchPut db entries = (db, Some err)) \/
  (exists txn db',
     badger.setAll (NewTransaction db true) entries = (txn, None) /\
     badger.BatchPut db entries = (db', None) /\
     Txn_Commit txn db = (db', None)).
Proof.
  unfold badger.BatchPut.
  destruct (badger.setAll (NewTransaction db true) entries) as [txn [e|]] eqn:Hset.
  - left. now exists e.
  - right. destruct (setAll_ok entries _ _ (new_writable db) Hset) as (Hw & _).
    pose proof (commit_ok txn db Hw) as Hc.
    destruct (Txn_Commit txn db) as [db' cerr] eqn:Hcommit. simpl in Hc. subst cerr.
    exists txn, db'. repeat split; auto.
Qed.

End BadgerStore.

Lemma removal_shrinks {A : Type} (t t' : gmap bytes A) (buf : list bytes) h :
  h ∈ buf -> is_Some (t !! h) ->
  (forall k, t' !! k = if decide (k ∈ buf) then None else t !! k) ->
  (size t' < size t)%nat.
Proof.
  intros Hin Hsome Hlook.
  assert (t' ⊆ delete h t) as Hsub.
  { apply map_subseteq_spec. intros k v Hk. rewrite Hlook in Hk.
    destruct (decide (k ∈ buf)); [discriminate|].
    apply lookup_delete_Some. split; [congruence | assumption]. }
  apply map_subseteq_size in Hsub.
  rewrite (map_size_delete_Some h t Hsome) in Hsub.
  destruct Hsome as [v Hv].
  assert (size t <> 0%nat) by (apply map_size_ne_0_lookup; eauto).
  lia.
Qed.

Lemma trimmed_refl {A : Type} (prefix min : bytes) (t : gmap bytes A) :
  trimmed prefix min t t.
Proof. intros k. now left. Qed.

Lemma trimmed_trans {A : Type} (prefix min : bytes) (t1 t2 t3 : gmap bytes A) :
  trimmed prefix min t1 t2 -> trimmed prefix min t2 t3 -> trimmed prefix min t1 t3.
Proof.
  intros H12 H23 k. destruct (H23 k) as [H|H]; [|now right].
  rewrite H. apply H12.
Qed.

Lemma removal_trimmed {A : Type} (prefix min : bytes) (room : nat) (t t' : gmap bytes A) :
  (forall k, t' !! k =
             if decide (k ∈ storage.collect prefix room
                              (storage.seek min (storage.sortedKeys t)))
             then None else t !! k) ->
  trimmed prefix min t t'.
Proof.
  intros Hlook k. rewrite Hlook.
  destruct (decide (k ∈ _)) as [Hin|]; [right | now left].
  apply collect_seek_sound in Hin as (_ & Hp & Hm). auto.
Qed.

(** ** Allocating the batch buffer *)

Section Makeslice.

Import storage.

Variables (avail : N) (batchSize : Z).

Lemma makeslice_cases :
  (makeslice avail sliceHeaderSize batchSize = Ret tt /\
   0 <= batchSize /\ sliceHeaderSize * batchSize <= maxAlloc /\
   sliceHeaderSize * batchSize <= Z.of_N avail) \/
  (makeslice avail sliceHeaderSize batchSize = GoPanic "makeslice: cap out of range" /\
   (batchSize < 0 \/ maxAlloc < sliceHeaderSize * batchSize)) \/
  (makeslice avail sliceHeaderSize batchSize = GoFatal "runtime: out of memory" /\
   0 <= batchSize /\ sliceHeaderSize * batchSize <= maxAlloc /\
   Z.of_N avail < sliceHeaderSize * batchSize).
Proof.
  unfold makeslice.
  destruct (Z.ltb_spec batchSize 0) as [Hneg|Hpos]; simpl.
  - right. left. split; [reflexivity | now left].
  - destruct (Z.ltb_spec maxAlloc (sliceHeaderSize * batchSize)) as [Hbig|Hfit].
    + right. left. split; [reflexivity | now right].
    + destruct (Z.ltb_spec (Z.of_N avail) (sliceHeaderSize * batchSize)) as [Hno|Hyes].
      * right. right. auto.
      * left. auto.
Qed.

Lemma makeslice_zero : makeslice avail sliceHeaderSize 0 = Ret tt.
Proof.
  unfold makeslice. rewrite Z.mul_0_r.
  change (0 <? 0) with false. change (maxAlloc <? 0) with false. simpl.
  destruct (Z.ltb_spec (Z.of_N avail) 0) as [Hneg|_]; [lia | reflexivity].
Qed.

End Makeslice.

Section BadgerTruncate.

Import storage badgerlib.

Variables (prefix min : bytes) (avail : N) (batchSize : Z).

Hypothesis buffer : makeslice avail sliceHeaderSize batchSize = Ret tt.

(** One batch either finds nothing or fails, leaving the store as it
    was, or removes the keys it collected. *)
Lemma badger_truncate_cases db :
  let buf := collect prefix (Z.to_nat batchSize) (seek min (sortedKeys (table db))) in
  (buf = [] /\ badger.truncate avail db prefix min batchSize = Ret (db, false, None)) \/
  (buf <> [] /\ exists err,
     badger.truncate avail db prefix min batchSize = Ret (db, false, Some err)) \/
  (buf <> [] /\ exists db',
     badger.truncate avail db prefix min batchSize = Ret (db', true, None) /\
     forall k, table db' !! k = if decide (k ∈ buf) then None else table db !! k).
Proof.
  intros buf. unfold badger.truncate. rewrite buffer.
  change (snapshot (NewTransaction db true)) with (table db). fold buf.
  destruct (decide (length buf = 0%nat)) as [Hz|Hnz].
  - left. split; [now apply length_zero_iff_nil | reflexivity].
  - right. assert (buf <> []) as Hne by (intros Heq; rewrite Heq in Hnz; now apply Hnz).
    destruct (badger.deleteAll (NewTransaction db true) buf) as [txn [err|]] eqn:Hdel.
    + left. split; [assumption|]. now exists err.
    + right. split; [assumption|].
      destruct (deleteAll_ok buf _ _ (new_writable db) Hdel) as (Hw & _ & Hp).
      pose proof (commit_ok txn db Hw) as Hc.
      destruct (Txn_Commit txn db) as [db' cerr] eqn:Hcommit. simpl in Hc. subst cerr.
      exists db'. split; [reflexivity|].
      intros k. rewrite (commit_lookup txn db db' k Hw Hcommit), Hp.
      destruct (decide (k ∈ buf)); [reflexivity|].
      unfold NewTransaction. simpl. now rewrite lookup_empty.
Qed.

Lemma badger_truncateLoop_ends fuel : forall db,
  (size (table db) < fuel)%nat ->
  exists db' err,
    badger.truncateLoop fuel avail db prefix min batchSize = Ret (db', err) /\
    trimmed prefix min (table db) (table db') /\
    badger.truncate avail db' prefix min batchSize = Ret (db', false, err).
Proof.
  induction fuel as [|fuel IH]; intros db Hsize; [lia|].
  cbn [badger.truncateLoop].
  destruct (badger_truncate_cases db) as [[Hnil Ht] | [[Hne [err Ht]] | [Hne (db1 & Ht & Hlook)]]];
    rewrite Ht.
  - exists db, None. split; [reflexivity|]. split; [apply trimmed_refl | assumption].
  - exists db, (Some err). split; [reflexivity|]. split; [apply trimmed_refl | assumption].
  - destruct (collect prefix (Z.to_nat batchSize) (seek min (sortedKeys (table db))))
      as [|h rest] eqn:Hbuf; [congruence|].
    assert (h ∈ h :: rest) as Hh by left.
    assert (is_Some (table db !! h)) as Hsome.
    { rewrite <- Hbuf in Hh. now apply collect_seek_sound in Hh as (? & _). }
    pose proof (removal_shrinks _ _ _ h Hh Hsome Hlook) as Hlt.
    destruct (IH db1 ltac:(lia)) as (db' & err & Hloop & Htrim & Hend).
    exists db', err. split; [assumption|]. split; [|assumption].
    apply (trimmed_trans _ _ _ (table db1)); [|assumption].
    apply (removal_trimmed prefix min (Z.to_nat batchSize)). now rewrite Hbuf.
Qed.

End BadgerTruncate.

(** When [make] does not return, neither does [Truncate], in either back
    end. *)
Lemma badger_Truncate_no_buffer avail db prefix min batchSize :
  badger.Truncate avail db prefix min batchSize =
  match storage.makeslice avail storage.sliceHeaderSize batchSize with
  | storage.Ret _ => badger.Truncate avail db prefix min batchSize
  | storage.GoPanic why => storage.GoPanic why
  | storage.GoFatal why => storage.GoFatal why
  | storage.NoFuel => storage.NoFuel
  end.
Proof.
  unfold badger.Truncate. cbn [badger.truncateLoop]. unfold badger.truncate.
  destruct (storage.makeslice avail storage.sliceHeaderSize batchSize); reflexivity.
Qed.

(** X1. In the badger back end a [Get] of a key that is not stored
    returns nil and no error, which is also what it returns for a key
    stored with an empty value: the two cannot be told apart. *)
Theorem badger_Get_missing_is_nil (db : badgerlib.DB) (key : bytes) :
  key <> [] ->
  badgerlib.table db !! key = None ->
  badger.Get db key = ([], None) /\
  badger.Get (fst (badger.Put db key [])) key = ([], None).
Proof.
  intros Hne Hnone. split; [now rewrite badger_Get_lookup, Hnone|].
  rewrite badger_Get_lookup by assumption. unfold badger.Put.
  destruct (BatchPut_cases db [storage.mkEntry key []])
    as [[err ->] | (txn & db' & Hset & -> & Hcommit)]; simpl.
  - now rewrite Hnone.
  - destruct (setAll_ok _ _ _ (new_writable db) Hset) as (Hw & _ & _ & Hp).
    rewrite (commit_lookup txn db db' key Hw Hcommit), Hp. simpl.
    now rewrite decide_True.
Qed.

Lemma badger_Get_missing_is_nil_witness :
  badger.Get sample_db [Byte.x7a] = ([], None) /\
  badger.Get (fst (badger.Put sample_db [Byte.x7a] [])) [Byte.x7a] = ([], None).
Proof.
  apply (badger_Get_missing_is_nil sample_db [Byte.x7a]); [discriminate|].
  vm_compute. reflexivity.
Defined.

(** X2. When a badger [BatchPut] returns no error, every key reads back
    the value of the last entry the batch holds for it, and every key the
    batch does not mention reads as before. *)
Theorem badger_BatchPut_reads_back (db db' : badgerlib.DB)
    (entries : list storage.Entry) :
  badger.BatchPut db entries = (db', None) ->
  forall k,
    badger.Get db' k =
    match lastPut entries k with
    | Some v => (v, None)
    | None => badger.Get db k
    end.
Proof.
  intros Hput k.
  destruct (BatchPut_cases db entries)
    as [[err Herr] | (txn & db1 & Hset & Hres & Hcommit)]; [congruence|].
  assert (db1 = db') as -> by congruence.
  destruct (setAll_ok entries _ _ (new_writable db) Hset) as (Hw & _ & Hkeys & Hp).
  destruct (decide (k = [])) as [->|Hne].
  - rewrite (lastPut_unnamed entries [] Hkeys). reflexivity.
  - rewrite !badger_Get_lookup by assumption.
    rewrite (commit_lookup txn db db' k Hw Hcommit), Hp.
    destruct (lastPut entries k); [reflexivity|].
    unfold badgerlib.NewTransaction. simpl. now rewrite lookup_empty.
Qed.

Lemma badger_BatchPut_reads_back_witness :
  badger.Get
    (fst (badger.BatchPut sample_db
            [storage.mkEntry [Byte.x6b] [Byte.x01]; storage.mkEntry [Byte.x6b] [Byte.x02]]))
    [Byte.x6b] = ([Byte.x02], None).
Proof.
  refine (badger_BatchPut_reads_back sample_db _
            [storage.mkEntry [Byte.x6b] [Byte.x01]; storage.mkEntry [Byte.x6b] [Byte.x02]]
            _ [Byte.x6b]).
  vm_compute. reflexivity.
Defined.

(** X3. A badger [BatchPut] is all or nothing: whenever it returns an
    error the store is what it was before, whatever entries came first.
    A batch that names the empty key anywhere is never stored: the call
    returns an error, the empty-key error when such an entry comes first,
    and otherwise that one or the error of an earlier entry the library
    refused. *)
Theorem badger_BatchPut_all_or_nothing (db : badgerlib.DB)
    (entries : list storage.Entry) :
  (forall db' err, badger.BatchPut db entries = (db', Some err) -> db' = db) /\
  (Exists (fun e => storage.e_Key e = []) entries ->
   exists err, badger.BatchPut db entries = (db, Some err)) /\
  (forall e rest, entries = e :: rest -> storage.e_Key e = [] ->
   badger.BatchPut db entries = (db, Some badgerlib.ErrEmptyKey)).
Proof.
  split; [|split].
  - intros db' err Hput.
    destruct (BatchPut_cases db entries) as [[e He] | (txn & db1 & _ & Hres & _)];
      congruence.
  - intros Hex. unfold badger.BatchPut.
    destruct (setAll_empty_key entries _ (new_writable db) Hex) as (txn' & err & ->).
    now exists err.
  - intros e rest -> Hkey. unfold badger.BatchPut. cbn [badger.setAll].
    unfold badgerlib.Txn_Set. rewrite Hkey.
    now rewrite (modify_empty_key _ (Some (storage.e_Value e)) (new_writable db)).
Qed.

(** The sample store takes the first entry and refuses the second, whose
    key is empty: nothing is stored. The same with the empty key first. *)
Lemma badger_BatchPut_all_or_nothing_witness :
  (exists err,
     badger.BatchPut sample_db
       [storage.mkEntry [Byte.x6b] [Byte.x01]; storage.mkEntry [] [Byte.x02]] =
     (sample_db, Some err)) /\
  badger.BatchPut sample_db
    [storage.mkEntry [] [Byte.x02]; storage.mkEntry [Byte.x6b] [Byte.x01]] =
  (sample_db, Some badgerlib.ErrEmptyKey).
Proof.
  split.
  - apply (proj1 (proj2 (badger_BatchPut_all_or_nothing sample_db
      [storage.mkEntry [Byte.x6b] [Byte.x01]; storage.mkEntry [] [Byte.x02]]))).
    right. left. reflexivity.
  - apply (proj2 (proj2 (badger_BatchPut_all_or_nothing sample_db
      [storage.mkEntry [] [Byte.x02]; storage.mkEntry [Byte.x6b] [Byte.x01]]))
      (storage.mkEntry [] [Byte.x02]) [storage.mkEntry [Byte.x6b] [Byte.x01]]);
      reflexivity.
Defined.

(** X4. A badger [ProcessMergedKey] on a key that is not stored fails,
    with the not-found error for a non-empty key, without calling on
    [fn]'s result and without touching the store. *)
Theorem badger_ProcessMergedKey_missing (db : badgerlib.DB) (key : bytes)
    (fn : bytes -> list storage.Entry * bytes * option string) :
  badgerlib.table db !! key = None ->
  exists err,
    badger.ProcessMergedKey db key fn = (db, Some err) /\
    (key <> [] -> err = badgerlib.ErrKeyNotFound).
Proof.
  intros Hnone. unfold badger.ProcessMergedKey, badgerlib.Txn_Get.
  destruct (decide (key = [])) as [->|Hne].
  - eexists. split; [reflexivity | congruence].
  - simpl. rewrite lookup_empty, Hnone.
    eexists. split; reflexivity.
Qed.

Lemma badger_ProcessMergedKey_missing_witness :
  exists err,
    badger.ProcessMergedKey sample_db [Byte.x7a] (fun v => ([], v, None)) =
    (sample_db, Some err) /\
    ([Byte.x7a] <> [] -> err = badgerlib.ErrKeyNotFound).
Proof.
  apply (badger_ProcessMergedKey_missing sample_db [Byte.x7a]).
  vm_compute. reflexivity.
Defined.

(** X5. A badger [ProcessMergedKey] on a stored key writes what [fn]
    hands back even when [fn] reports an error, which is never looked at:
    if the call returns no error, the key reads back the operation itself
    (also when the entries mention the key) and every other key reads the
    last entry for it or its old value; if the call returns an error the
    store is unchanged. *)
Theorem badger_ProcessMergedKey_stores (db db' : badgerlib.DB) (key val : bytes)
    (fn : bytes -> list storage.Entry * bytes * option string)
    (entries : list storage.Entry) (operation : bytes) (fnErr : option string)
    (err : option badgerlib.error) :
  badgerlib.table db !! key = Some val ->
  fn val = (entries, operation, fnErr) ->
  badger.ProcessMergedKey db key fn = (db', err) ->
  match err with
  | Some _ => db' = db
  | None =>
      badger.Get db' key = (operation, None) /\
      forall k, k <> key ->
        badger.Get db' k =
        match lastPut entries k with
        | Some v => (v, None)
        | None => badger.Get db k
        end
  end.
Proof.
  intros Hval Hfn. unfold badger.ProcessMergedKey, badgerlib.Txn_Get.
  destruct (decide (key = [])) as [->|Hne]; [now intros [= <- <-]|].
  simpl. rewrite lookup_empty, Hval, Hfn.
  destruct (badger.setAll (badgerlib.NewTransaction db true) entries)
    as [txn [e|]] eqn:Hset; [now intros [= <- <-]|].
  destruct (setAll_ok entries _ _ (new_writable db) Hset) as (Hw & _ & Hkeys & Hp).
  unfold badgerlib.Txn_Set.
  destruct (badgerlib.modify txn key (Some operation)) as [txn2 [e|]] eqn:Hm;
    [now intros [= <- <-]|].
  destruct (modify_ok _ _ _ _ Hw Hm) as (_ & Hw2 & _ & Hp2).
  intros Hcommit. pose proof (commit_ok txn2 db Hw2) as Hc.
  rewrite Hcommit in Hc. simpl in Hc. subst err.
  split.
  - rewrite badger_Get_lookup by assumption.
    rewrite (commit_lookup txn2 db db' key Hw2 Hcommit), Hp2, lookup_insert_eq.
    reflexivity.
  - intros k Hk. destruct (decide (k = [])) as [->|Hk0].
    + rewrite (lastPut_unnamed entries [] Hkeys). reflexivity.
    + rewrite !badger_Get_lookup by assumption.
      rewrite (commit_lookup txn2 db db' k Hw2 Hcommit), Hp2.
      rewrite lookup_insert_ne by congruence. rewrite Hp.
      destruct (lastPut entries k); [reflexivity|].
      unfold badgerlib.NewTransaction. simpl. now rewrite lookup_empty.
Qed.

(** [fn] reports an error and names the key among its entries: the
    operation is stored all the same. *)
Lemma badger_ProcessMergedKey_stores_witness :
  badger.Get
    (fst (badger.ProcessMergedKey sample_db [Byte.x61; Byte.x31]
            (fun v => ([storage.mkEntry [Byte.x61; Byte.x31] [Byte.x09]],
                       v ++ [Byte.x05], Some "refused"))))
    [Byte.x61; Byte.x31] = ([Byte.x01; Byte.x05], None).
Proof.
  pose proof (badger_ProcessMergedKey_stores sample_db
    (fst (badger.ProcessMergedKey sample_db [Byte.x61; Byte.x31]
            (fun v => ([storage.mkEntry [Byte.x61; Byte.x31] [Byte.x09]],
                       v ++ [Byte.x05], Some "refused"))))
    [Byte.x61; Byte.x31] [Byte.x01]
    (fun v => ([storage.mkEntry [Byte.x61; Byte.x31] [Byte.x09]],
               v ++ [Byte.x05], Some "refused"))
    [storage.mkEntry [Byte.x61; Byte.x31] [Byte.x09]] [Byte.x01; Byte.x05]
    (Some "refused") None) as H.
  apply H; vm_compute; reflexivity.
Defined.

(** X6. A badger [Truncate] returns whenever [make] can serve the batch
    size, that is when the size is not negative and a buffer of that many
    slice headers is within what one allocation may ask for and within
    the memory at hand; the store it leaves is then the store it found
    less some keys, each of which carries the prefix and is not below
    [min]: no key outside that range is removed and no value is changed.
    A batch size beyond what one allocation may ask for makes it panic,
    and one beyond the memory at hand ends the process. *)
Theorem badger_Truncate_returns (avail : N) (db : badgerlib.DB) (prefix min : bytes)
    (batchSize : Z) :
  (0 <= batchSize ->
   storage.sliceHeaderSize * batchSize <= storage.maxAlloc ->
   storage.sliceHeaderSize * batchSize <= Z.of_N avail ->
   exists db' err,
     badger.Truncate avail db prefix min batchSize = storage.Ret (db', err) /\
     trimmed prefix min (badgerlib.table db) (badgerlib.table db')) /\
  (storage.maxAlloc < storage.sliceHeaderSize * batchSize ->
   exists why, badger.Truncate avail db prefix min batchSize = storage.GoPanic why) /\
  (0 <= batchSize ->
   storage.sliceHeaderSize * batchSize <= storage.maxAlloc ->
   Z.of_N avail < storage.sliceHeaderSize * batchSize ->
   exists why, badger.Truncate avail db prefix min batchSize = storage.GoFatal why).
Proof.
  rewrite badger_Truncate_no_buffer.
  destruct (makeslice_cases avail batchSize)
    as [(Hm & H0 & H1 & H2) | [(Hm & Hbad) | (Hm & H0 & H1 & H2)]];
    rewrite Hm; (split; [|split]); try lia; eauto.
  intros _ _ _.
  destruct (badger_truncateLoop_ends prefix min avail batchSize Hm
              (S (size (badgerlib.table db))) db ltac:(lia))
    as (db' & err & Hloop & Htrim & _).
  eauto.
Qed.

Lemma badger_Truncate_returns_witness :
  exists db' err,
    badger.Truncate 1000000 sample_db [Byte.x61] [Byte.x61] 1 = storage.Ret (db', err) /\
    trimmed [Byte.x61] [Byte.x61] (badgerlib.table sample_db) (badgerlib.table db').
Proof.
  apply (proj1 (badger_Truncate_returns 1000000 sample_db [Byte.x61] [Byte.x61] 1));
    vm_compute; discriminate.
Defined.

(** X7. When [min] itself carries the prefix and the batch size is
    positive, a badger [Truncate] that returns without error has removed
    every key that carries the prefix and is not below [min], however many
    batches that took. *)
Theorem badger_Truncate_complete (avail : N) (db db' : badgerlib.DB)
    (prefix min : bytes) (batchSize : Z) :
  0 < batchSize ->
  storage.hasPrefix min prefix = true ->
  badger.Truncate avail db prefix min batchSize = storage.Ret (db', None) ->
  forall k,
    storage.key_leb min k = true -> storage.hasPrefix k prefix = true ->
    badgerlib.table db' !! k = None.
Proof.
  intros Hb Hmin. rewrite badger_Truncate_no_buffer.
  destruct (makeslice_cases avail batchSize)
    as [(Hm & _) | [(Hm & _) | (Hm & _)]]; rewrite Hm; try discriminate.
  unfold badger.Truncate.
  destruct (badger_truncateLoop_ends prefix min avail batchSize Hm
              (S (size (badgerlib.table db))) db ltac:(lia))
    as (db1 & err & -> & _ & Hend).
  intros [= -> ->] k Hle Hp. rename db' into db1.
  destruct (badger_truncate_cases prefix min avail batchSize Hm db1)
    as [[Hnil _] | [[_ [e Ht]] | [_ (db2 & Ht & _)]]];
    [|rewrite Ht in Hend; discriminate | rewrite Ht in Hend; discriminate].
  destruct (Z.to_nat batchSize) as [|room] eqn:Hroom; [lia|].
  destruct (badgerlib.table db1 !! k) as [v|] eqn:Hk; [exfalso | reflexivity].
  pose proof (collect_seek_complete (badgerlib.table db1) prefix min room k Hmin Hnil
                ltac:(rewrite Hk; eauto) Hle) as Hno.
  congruence.
Qed.

(** From the sample store, batch by batch of one key, both keys under "a"
    go and "b1" stays. *)
Lemma badger_Truncate_complete_witness :
  badgerlib.table
    (match badger.Truncate 1000000 sample_db [Byte.x61] [Byte.x61] 1 with
     | storage.Ret (db', _) => db'
     | _ => sample_db
     end) !! [Byte.x61; Byte.x32] = None.
Proof.
  apply (badger_Truncate_complete 1000000 sample_db _ [Byte.x61] [Byte.x61] 1);
    try reflexivity; try lia.
Defined.

(** ** The rocksdb back end *)

Section RocksdbStore.

Import storage rocksdblib.

Context {V : Type}.

(** The batch built by one [batch.Delete] per key holds the keys in
    order. *)
Lemma batch_of_keys (keys : list bytes) : forall batch : list bytes,
  foldl (fun batch key => batch ++ [key]) batch keys = batch ++ keys.
Proof.
  induction keys as [|key rest IH]; intros batch; simpl.
  - now rewrite app_nil_r.
  - rewrite IH, <- app_assoc. reflexivity.
Qed.

Lemma deletions_lookup keys : forall (t : gmap bytes V) k,
  foldl (fun t key => delete key t) t keys !! k =
  if decide (k ∈ keys) then None else t !! k.
Proof.
  induction keys as [|key rest IH]; intros t k; cbn [foldl].
  - rewrite decide_False; [reflexivity | apply not_elem_of_nil].
  - rewrite IH. destruct (decide (k ∈ rest)) as [Hin|Hnin].
    + rewrite decide_True; [reflexivity | now right].
    + destruct (decide (key = k)) as [->|Hne].
      * rewrite lookup_delete_eq, decide_True; [reflexivity | left].
      * rewrite lookup_delete_ne by assumption.
        rewrite decide_False; [reflexivity|].
        intros Hin. apply elem_of_cons in Hin as [->|Hin]; contradiction.
Qed.

(** A write either fails on the status the library answers, leaving the
    table as it was, or removes the keys of the batch. Either way one
    answer is used up. *)
Lemma DB_Write_cases (db : DB V) (batch : list bytes) :
  (exists e,
     head (faults db) = Some (Some e) /\
     DB_Write db batch = (mkDB (table db) (tail (faults db)), Some e)) \/
  (Forall (fun f => f = None) (take 1 (faults db)) /\
   DB_Write db batch =
   (mkDB (foldl (fun t key => delete key t) (table db) batch) (tail (faults db)), None)).
Proof.
  unfold DB_Write, answer. destruct db as [t [|[e|] rest]]; simpl.
  - right. split; [constructor | reflexivity].
  - left. now exists e.
  - right. split; [repeat constructor | reflexivity].
Qed.

Lemma DB_Delete_Write (db : DB V) (key : bytes) : DB_Delete db key = DB_Write db [key].
Proof. reflexivity. Qed.

Variables (prefix min : bytes) (avail : N) (batchSize : Z).

Hypothesis buffer : makeslice avail sliceHeaderSize batchSize = Ret tt.

Lemma rocksdb_truncateLoop_ends fuel : forall db : DB V,
  (size (table db) < fuel)%nat ->
  exists db' err,
    rocksdb.truncateLoop fuel avail db prefix min batchSize = Ret (db', err) /\
    trimmed prefix min (table db) (table db') /\
    (Forall (fun f => f = None) (faults db) -> err = None) /\
    (err = None ->
     collect prefix (Z.to_nat batchSize) (seek min (sortedKeys (table db'))) = []).
Proof.
  induction fuel as [|fuel IH]; intros db Hsize; [lia|].
  cbn [rocksdb.truncateLoop]. unfold rocksdb.truncate. rewrite buffer.
  destruct (collect prefix (Z.to_nat batchSize) (seek min (sortedKeys (table db))))
    as [|h rest] eqn:Hbuf.
  - simpl. exists db, None. split; [reflexivity|]. split; [apply trimmed_refl|]. auto.
  - rewrite decide_False by discriminate. rewrite batch_of_keys, app_nil_l.
    destruct (DB_Write_cases db (h :: rest)) as [(e & Hhead & ->) | (Hnone & ->)].
    + exists (mkDB (table db) (tail (faults db))), (Some e).
      split; [reflexivity|]. split; [apply trimmed_refl|]. split; [|discriminate].
      intros Hall. destruct (faults db) as [|f fs]; [discriminate|].
      apply Forall_cons in Hall as [-> _]. discriminate.
    + set (db1 := mkDB (foldl (fun t key => delete key t) (table db) (h :: rest))
                    (tail (faults db))).
      assert (h ∈ h :: rest) as Hh by left.
      assert (is_Some (table db !! h)) as Hsome.
      { rewrite <- Hbuf in Hh. now apply collect_seek_sound in Hh as (? & _). }
      pose proof (removal_shrinks (table db) (table db1) (h :: rest) h Hh Hsome
                    (deletions_lookup (h :: rest) (table db))) as Hlt.
      destruct (IH db1 ltac:(lia)) as (db' & err & Hloop & Htrim & Hclean & Hend).
      exists db', err. split; [assumption|]. split; [|split; [|assumption]].
      * apply (trimmed_trans _ _ _ (table db1)); [|assumption].
        apply (removal_trimmed prefix min (Z.to_nat batchSize)). rewrite Hbuf.
        apply deletions_lookup.
      * intros Hall. apply Hclean. simpl.
        destruct (faults db) as [|f fs]; [constructor|].
        now apply Forall_cons in Hall as [_ Hall].
Qed.

End RocksdbStore.

(** X8. The batch size bounds what [Truncate] can do at all: with batch
    size 0 either back end removes nothing and reports success, and with a
    negative one it panics before touching the store. *)
Theorem Truncate_batch_size_edge (avail : N) (db : badgerlib.DB) (V : Type)
    (store : rocksdblib.DB V) (prefix min : bytes) (batchSize : Z) :
  badger.Truncate avail db prefix min 0 = storage.Ret (db, None) /\
  rocksdb.Truncate avail store prefix min 0 = storage.Ret (store, None) /\
  (batchSize < 0 ->
   (exists why, badger.Truncate avail db prefix min batchSize = storage.GoPanic why) /\
   (exists why, rocksdb.Truncate avail store prefix min batchSize = storage.GoPanic why)).
Proof.
  assert (forall cursor, storage.collect prefix 0 cursor = []) as Hzero.
  { intros [|k rest]; [reflexivity|]. simpl. now destruct (storage.hasPrefix k prefix). }
  split; [|split].
  - unfold badger.Truncate. cbn [badger.truncateLoop]. unfold badger.truncate.
    rewrite makeslice_zero. change (Z.to_nat 0) with 0%nat. now rewrite Hzero.
  - unfold rocksdb.Truncate. cbn [rocksdb.truncateLoop]. unfold rocksdb.truncate.
    rewrite makeslice_zero. change (Z.to_nat 0) with 0%nat. now rewrite Hzero.
  - intros Hneg. unfold badger.Truncate, rocksdb.Truncate.
    cbn [badger.truncateLoop rocksdb.truncateLoop].
    unfold badger.truncate, rocksdb.truncate.
    destruct (makeslice_cases avail batchSize)
      as [(Hm & H0 & _) | [(Hm & _) | (Hm & H0 & _)]]; try lia.
    rewrite Hm. split; eauto.
Qed.

Lemma Truncate_batch_size_edge_witness :
  exists why,
    badger.Truncate 1000000 sample_db [Byte.x61] [Byte.x61] (-1) = storage.GoPanic why.
Proof.
  apply (proj2 (proj2 (Truncate_batch_size_edge 1000000 sample_db bytes sample_store
                         [Byte.x61] [Byte.x61] (-1)))).
  lia.
Defined.

(** X9. In the rocksdb back end [BatchDelete] and [Delete] do remove what
    they are told to, unless the write fails: when the call returns no
    error each key given is gone and every other key holds what it held;
    when it returns an error, which is the status the library answered,
    nothing is removed. *)
Theorem rocksdb_BatchDelete_removes (V : Type) (db db' : rocksdblib.DB V)
    (keys : list bytes) (key : bytes) (err : option rocksdblib.error) :
  (rocksdb.BatchDelete db keys = (db', err) ->
   match err with
   | None =>
       forall k, rocksdblib.table db' !! k =
                 if decide (k ∈ keys) then None else rocksdblib.table db !! k
   | Some e =>
       rocksdblib.table db' = rocksdblib.table db /\
       head (rocksdblib.faults db) = Some (Some e)
   end) /\
  (rocksdb.Delete db key = (db', err) ->
   match err with
   | None =>
       forall k, rocksdblib.table db' !! k =
                 if decide (k = key) then None else rocksdblib.table db !! k
   | Some e =>
       rocksdblib.table db' = rocksdblib.table db /\
       head (rocksdblib.faults db) = Some (Some e)
   end).
Proof.
  split.
  - unfold rocksdb.BatchDelete. rewrite batch_of_keys, app_nil_l.
    destruct (DB_Write_cases db keys) as [(e & Hhead & ->) | (_ & ->)];
      intros [= <- <-]; simpl; [auto|].
    intros k. apply deletions_lookup.
  - unfold rocksdb.Delete. rewrite DB_Delete_Write.
    destruct (DB_Write_cases db [key]) as [(e & Hhead & ->) | (_ & ->)];
      intros [= <- <-]; simpl; [auto|].
    intros k. destruct (decide (k = key)) as [->|Hne].
    + apply lookup_delete_eq.
    + now apply lookup_delete_ne.
Qed.

(** On the sample store, whose calls succeed, deleting "a1" and "b1"
    leaves "a2" alone; when the library answers with a failure, "a1" is
    still there. *)
Lemma rocksdb_BatchDelete_removes_witness :
  (forall k,
     rocksdblib.table
       (fst (rocksdb.BatchDelete sample_store
               [[Byte.x61; Byte.x31]; [Byte.x62; Byte.x31]])) !! k =
     if decide (k ∈ [[Byte.x61; Byte.x31]; [Byte.x62; Byte.x31]])
     then None else sample_table !! k) /\
  rocksdblib.table
    (fst (rocksdb.Delete
            (rocksdblib.mkDB sample_table [Some (rocksdblib.Status "IO error")])
            [Byte.x61; Byte.x31])) = sample_table.
Proof.
  split.
  - apply (proj1 (rocksdb_BatchDelete_removes bytes sample_store
                    (fst (rocksdb.BatchDelete sample_store
                            [[Byte.x61; Byte.x31]; [Byte.x62; Byte.x31]]))
                    [[Byte.x61; Byte.x31]; [Byte.x62; Byte.x31]] [] None)).
    reflexivity.
  - apply (proj2 (rocksdb_BatchDelete_removes bytes
                    (rocksdblib.mkDB sample_table [Some (rocksdblib.Status "IO error")])
                    (fst (rocksdb.Delete
                            (rocksdblib.mkDB sample_table
                               [Some (rocksdblib.Status "IO error")])
                            [Byte.x61; Byte.x31]))
                    [] [Byte.x61; Byte.x31] (Some (rocksdblib.Status "IO error")))).
    reflexivity.
Defined.

(** X10. A rocksdb [Truncate] returns whenever [make] can serve the batch
    size. It removes only keys that carry the prefix and are not below
    [min] and changes no value, also when a write fails on the way. It
    returns no error when no call into the library fails. And when it
    returns no error, [min] carries the prefix and the batch size is
    positive, no key that carries the prefix and is not below [min] is
    left. *)
Theorem rocksdb_Truncate_removes_range (V : Type) (avail : N) (db : rocksdblib.DB V)
    (prefix min : bytes) (batchSize : Z) :
  0 <= batchSize ->
  storage.sliceHeaderSize * batchSize <= storage.maxAlloc ->
  storage.sliceHeaderSize * batchSize <= Z.of_N avail ->
  exists db' err,
    rocksdb.Truncate avail db prefix min batchSize = storage.Ret (db', err) /\
    trimmed prefix min (rocksdblib.table db) (rocksdblib.table db') /\
    (Forall (fun f => f = None) (rocksdblib.faults db) -> err = None) /\
    (err = None -> 0 < batchSize -> storage.hasPrefix min prefix = true ->
     forall k, storage.key_leb min k = true -> storage.hasPrefix k prefix = true ->
               rocksdblib.table db' !! k = None).
Proof.
  intros H0 H1 H2.
  destruct (makeslice_cases avail batchSize)
    as [(Hm & _) | [(_ & Hbad) | (_ & _ & _ & Hbad)]]; try lia.
  unfold rocksdb.Truncate.
  destruct (rocksdb_truncateLoop_ends prefix min avail batchSize Hm
              (S (size (rocksdblib.table db))) db ltac:(lia))
    as (db' & err & Hloop & Htrim & Hclean & Hend).
  exists db', err. split; [assumption|]. split; [assumption|]. split; [assumption|].
  intros Herr Hpos Hmin k Hle Hp.
  destruct (Z.to_nat batchSize) as [|room] eqn:Hroom; [lia|].
  destruct (rocksdblib.table db' !! k) as [v|] eqn:Hk; [exfalso | reflexivity].
  pose proof (collect_seek_complete (rocksdblib.table db') prefix min room k Hmin
                (Hend Herr) ltac:(rewrite Hk; eauto) Hle) as Hno.
  congruence.
Qed.

Lemma rocksdb_Truncate_removes_range_witness :
  exists db' err,
    rocksdb.Truncate 1000000 sample_store [Byte.x61] [Byte.x61] 1 =
    storage.Ret (db', err) /\
    trimmed [Byte.x61] [Byte.x61] sample_table (rocksdblib.table db') /\
    (Forall (fun f => f = None) (rocksdblib.faults sample_store) -> err = None) /\
    (err = None -> 0 < 1 -> storage.hasPrefix [Byte.x61] [Byte.x61] = true ->
     forall k, storage.key_leb [Byte.x61] k = true ->
               storage.hasPrefix k [Byte.x61] = true ->
               rocksdblib.table db' !! k = None).
Proof.
  apply (rocksdb_Truncate_removes_range bytes 1000000 sample_store
           [Byte.x61] [Byte.x61] 1); vm_compute; discriminate.
Defined.

(** X11. The rocksdb [FullMerge] over two runs of operands is the merge
    of the first run followed by the merge of the second from its result,
    and an abort in the first run aborts the whole. *)
Theorem FullMerge_app (op : storage.MergeOperator) (key : bytes)
    (ops1 ops2 : list bytes) (existing : bytes) :
  rocksdb.FullMerge op key existing (ops1 ++ ops2) =
  match rocksdb.FullMerge op key existing ops1 with
  | (v, true) => rocksdb.FullMerge op key v ops2
  | (_, false) => ([], false)
  end.
Proof.
  revert existing. induction ops1 as [|operand rest IH]; intros existing.
  - reflexivity.
  - rewrite <- app_comm_cons, !FullMerge_cons.
    destruct (snd (storage.MergeFunc op existing operand)); [apply IH | reflexivity].
Qed.

(** * Further properties of the consumer group *)

(** ** Attaching and detaching receivers *)

Section Membership.

Import broker.

Lemma set_receivers_same c : set_receivers (receivers c) c = c.
Proof. now destruct c. Qed.

Lemma findReceiver_None nm rs :
  findReceiver nm rs = None <-> Forall (fun r => name r <> nm) rs.
Proof.
  induction rs as [|r rest IH]; simpl; [split; [constructor | reflexivity]|].
  destruct (decide (name r = nm)) as [Heq|Hne].
  - split; [discriminate|]. intros H. apply Forall_cons in H as [H _]. contradiction.
  - rewrite IH. split; [now constructor | intros H; now apply Forall_cons in H as [_ H]].
Qed.

Lemma removeFirst_None nm rs :
  removeFirst nm rs = None <-> findReceiver nm rs = None.
Proof.
  induction rs as [|r rest IH]; simpl; [split; reflexivity|].
  destruct (decide (name r = nm)); [split; discriminate|].
  rewrite <- IH. destruct (removeFirst nm rest); simpl; split; congruence.
Qed.

Lemma findReceiver_split nm l1 r l2 :
  Forall (fun x => name x <> nm) l1 -> name r = nm ->
  findReceiver nm (l1 ++ r :: l2) = Some r.
Proof.
  intros Hl1 Hr. induction l1 as [|x l1 IH]; simpl.
  - now rewrite decide_True.
  - apply Forall_cons in Hl1 as [Hx Hl1]. rewrite decide_False by assumption. auto.
Qed.

Lemma removeFirst_app_fresh nm rs r :
  findReceiver nm rs = None -> name r = nm -> removeFirst nm (rs ++ [r]) = Some rs.
Proof.
  intros Hnone Hr. induction rs as [|x rs IH]; simpl in *.
  - now rewrite decide_True.
  - destruct (decide (name x = nm)); [discriminate|]. now rewrite IH.
Qed.

End Membership.

(** X12. [removeConsumer] detaches exactly the receiver that
    [getReceiver] finds under the name: when no receiver bears the name it
    answers false and leaves the group as it is; otherwise it answers
    true and the list loses that one receiver, the first of that name,
    all others keeping their places. *)
Theorem removeConsumer_detaches_found (c : broker.ConsumerGroup) (nm : string) :
  match broker.getReceiver c nm with
  | None => broker.removeConsumer c nm = (c, false)
  | Some r =>
      exists l1 l2,
        broker.receivers c = l1 ++ r :: l2 /\
        Forall (fun x => broker.name x <> nm) l1 /\
        broker.name r = nm /\
        broker.removeConsumer c nm = (broker.set_receivers (l1 ++ l2) c, true)
  end.
Proof.
  unfold broker.getReceiver, broker.removeConsumer.
  destruct (broker.findReceiver nm (broker.receivers c)) as [r|] eqn:Hfind.
  - destruct (broker.removeFirst nm (broker.receivers c)) as [rs'|] eqn:Hrm.
    + destruct (removeFirst_split _ _ _ Hrm) as (l1 & r0 & l2 & Hrs & -> & Hn & Hl1).
      rewrite Hrs in Hfind. rewrite (findReceiver_split nm l1 r0 l2 Hl1 Hn) in Hfind.
      injection Hfind as ->. exists l1, l2. auto.
    + apply removeFirst_None in Hrm. congruence.
  - apply removeFirst_None in Hfind. now rewrite Hfind.
Qed.

(** X13. Detaching undoes attaching: after [register] has attached a
    consumer under a name the group did not know, [removeConsumer] on that
    name answers true and gives back the group as it was before. *)
Theorem register_then_removeConsumer (c : broker.ConsumerGroup) (rt : broker.Runtime)
    (consumerName : string) :
  broker.getReceiver c consumerName = None ->
  let '(_, c1, _) := broker.register c rt consumerName in
  broker.removeConsumer c1 consumerName = (c, true).
Proof.
  intros Hnone. unfold broker.register. rewrite Hnone.
  unfold broker.removeConsumer. cbn [broker.receivers broker.set_receivers].
  rewrite removeFirst_app_fresh by (try assumption; reflexivity).
  unfold broker.set_receivers. simpl. now destruct c.
Qed.

Lemma register_then_removeConsumer_witness :
  broker.removeConsumer
    (snd (fst (broker.register (group_of [alice]) (broker.mkRuntime 2 1) "bob"))) "bob" =
  (group_of [alice], true).
Proof.
  exact (register_then_removeConsumer (group_of [alice]) (broker.mkRuntime 2 1) "bob"
           eq_refl).
Defined.

Section GoodOrder.

Import broker.

Lemma channels_app c rs r :
  channels (set_receivers (rs ++ [r]) c) = channels (set_receivers rs c) ++ [msgCh r; doneCh r].
Proof.
  unfold channels. simpl. rewrite bind_app. reflexivity.
Qed.

Lemma register_keeps_order c rt nm :
  attached_ok c rt ->
  let '(_, c', rt') := register c rt nm in attached_ok c' rt'.
Proof.
  intros (Hnames & Hch & Hlt). unfold register.
  destruct (getReceiver c nm) as [r|] eqn:Hget; [repeat split; assumption|].
  set (r := mkReceiver nm (nextChan rt) (S (nextChan rt))).
  assert (nextChan (if decide (length (receivers (set_receivers (receivers c ++ [r]) c)) = 1%nat)
                    then mkRuntime (nextChan (mkRuntime (S (S (nextChan rt))) (spawned rt)))
                           (S (spawned (mkRuntime (S (S (nextChan rt))) (spawned rt))))
                    else mkRuntime (S (S (nextChan rt))) (spawned rt))
          = S (S (nextChan rt))) as Hnext by (destruct (decide _); reflexivity).
  unfold attached_ok. rewrite Hnext, channels_app, set_receivers_same.
  cbn [receivers set_receivers]. split; [|split].
  - rewrite fmap_app. apply NoDup_app. split; [assumption|]. split.
    + intros x Hx Hx'. apply list_elem_of_singleton in Hx'. subst x.
      unfold getReceiver in Hget. apply findReceiver_None in Hget.
      apply list_elem_of_fmap in Hx as (r0 & Hr0 & Hin).
      rewrite Forall_forall in Hget. now apply (Hget r0 Hin).
    + simpl. apply NoDup_singleton.
  - apply NoDup_app. split; [assumption|]. split.
    + intros x Hx Hx'. rewrite Forall_forall in Hlt. specialize (Hlt x Hx).
      simpl in Hx'. apply elem_of_cons in Hx' as [->|Hx']; [lia|].
      apply list_elem_of_singleton in Hx'. lia.
    + simpl. apply NoDup_cons. split; [|apply NoDup_singleton].
      intros H. apply list_elem_of_singleton in H. lia.
  - apply Forall_app. split.
    + eapply Forall_impl; [exact Hlt|]. simpl. intros; lia.
    + simpl. repeat constructor; lia.
Qed.

Lemma removeConsumer_keeps_order c rt nm :
  attached_ok c rt -> attached_ok (fst (removeConsumer c nm)) rt.
Proof.
  intros (Hnames & Hch & Hlt).
  pose proof (removeConsumer_detaches_found c nm) as H.
  destruct (getReceiver c nm) as [r|]; [|rewrite H; repeat split; assumption].
  destruct H as (l1 & l2 & Hrs & _ & _ & ->). simpl.
  unfold attached_ok, channels in *. cbn [receivers set_receivers].
  rewrite Hrs in Hnames, Hch, Hlt.
  rewrite fmap_app, fmap_cons in Hnames. rewrite bind_app, bind_cons in Hch, Hlt.
  apply NoDup_app in Hnames as (Hn1 & Hn2 & Hn3). apply NoDup_cons in Hn3 as [Hn3 Hn4].
  apply NoDup_app in Hch as (Hc1 & Hc2 & Hc3). apply NoDup_app in Hc3 as (_ & _ & Hc3).
  apply Forall_app in Hlt as [Hl1 Hl2]. apply Forall_app in Hl2 as [_ Hl2].
  split; [|split].
  - rewrite fmap_app. apply NoDup_app. repeat split; auto.
    intros x Hx Hx'. apply (Hn2 x Hx). now right.
  - rewrite bind_app. apply NoDup_app. repeat split; auto.
    intros x Hx Hx'. apply (Hc2 x Hx). apply elem_of_app. now right.
  - rewrite bind_app. apply Forall_app. now split.
Qed.

End GoodOrder.

(** X14. Attaching and detaching keep a group in good order: if no two
    receivers share a name or a channel before [register] or
    [removeConsumer], none do after; in particular a newly attached
    consumer's two channels are its own. A group without receivers is in
    good order. *)
Theorem membership_keeps_good_order (c : broker.ConsumerGroup) (rt : broker.Runtime)
    (nm : string) :
  attached_ok (broker.set_receivers [] c) rt /\
  (attached_ok c rt ->
   attached_ok (snd (fst (broker.register c rt nm))) (snd (broker.register c rt nm)) /\
   attached_ok (fst (broker.removeConsumer c nm)) rt).
Proof.
  split.
  - repeat split; simpl; constructor.
  - intros Hok. split; [|now apply removeConsumer_keeps_order].
    pose proof (register_keeps_order c rt nm Hok) as H.
    now destruct (broker.register c rt nm) as [[r c'] rt'].
Qed.

Lemma membership_keeps_good_order_witness :
  attached_ok (snd (fst (broker.register (group_of [alice]) (broker.mkRuntime 2 1) "bob")))
    (snd (broker.register (group_of [alice]) (broker.mkRuntime 2 1) "bob")).
Proof.
  apply (proj2 (membership_keeps_good_order (group_of [alice]) (broker.mkRuntime 2 1) "bob")).
  repeat split; simpl.
  - apply NoDup_singleton.
  - apply (bool_decide_unpack _). vm_compute. exact I.
  - repeat constructor.
Defined.

(** X15. Once the consume loop has torn the group down, the next
    [Consume] starts afresh: it spawns a new loop, and the channels it
    hands out are new ones, none of those that were closed, even for a
    consumer name that was attached before. *)
Theorem Consume_after_teardown (c : broker.ConsumerGroup) (rt : broker.Runtime)
    (consumerName : string) :
  attached_ok c rt ->
  let '(c0, closed) := broker.teardown c in
  let '((mch, dch), c1, rt1) := broker.Consume c0 rt consumerName in
  broker.spawned rt1 = S (broker.spawned rt) /\
  broker.receivers c1 = [broker.mkReceiver consumerName mch dch] /\
  (mch ∉ closed) /\ (dch ∉ closed) /\ mch <> dch.
Proof.
  intros (_ & _ & Hlt). unfold broker.teardown, broker.Consume, broker.register.
  simpl. fold (channels c). rewrite Forall_forall in Hlt.
  split; [reflexivity|]. split; [reflexivity|].
  split; [|split]; try lia; intros Hin; apply Hlt in Hin; lia.
Qed.

Lemma Consume_after_teardown_witness :
  let '(c0, closed) := broker.teardown (group_of [alice]) in
  let '((mch, dch), c1, rt1) := broker.Consume c0 (broker.mkRuntime 2 1) "alice" in
  broker.spawned rt1 = 2%nat /\
  broker.receivers c1 = [broker.mkReceiver "alice" mch dch] /\
  (mch ∉ closed) /\ (dch ∉ closed) /\ mch <> dch.
Proof.
  apply (Consume_after_teardown (group_of [alice]) (broker.mkRuntime 2 1) "alice").
  repeat split; simpl.
  - apply NoDup_singleton.
  - apply (bool_decide_unpack _). vm_compute. exact I.
  - repeat constructor.
Defined.

(** ** The dispatcher *)

Section Fairness.

Import broker.

Variable c : ConsumerGroup.
Hypothesis some_receiver : receivers c <> [].

Lemma dispatchLoop_all_sent inCh : forall i m0 sent,
  0 <= i -> i + Z.of_nat (length inCh) <= max_int64 ->
  let res := dispatchLoop i c m0 inCh (replicate (length inCh) MsgSent) sent in
  ending res = ChannelClosed /\
  lr_i res = i + Z.of_nat (length inCh) /\
  lr_group res = c /\
  length (dispatched res) = (length sent + length inCh)%nat /\
  (forall j, (j < length sent)%nat -> dispatched res !! j = sent !! j) /\
  (forall (j : nat) m, inCh !! j = Some m ->
     exists r, pick (i + 1 + Z.of_nat j) (receivers c) = Some r /\
               dispatched res !! (length sent + j)%nat = Some (r, m)).
Proof.
  induction inCh as [|msg rest IH]; intros i m0 sent Hi Hmax; cbn zeta.
  - simpl. repeat split; try lia. intros j m Hj. inversion Hj.
  - cbn [length] in Hmax. cbn [length replicate dispatchLoop].
    destruct (pick_lookup (i + 1) (receivers c) some_receiver ltac:(lia)) as [_ [r Hr]].
    rewrite (selectreceiver_sent c i ltac:(unfold max_int64 in *; lia) r _ Hr).
    destruct (IH (i + 1) (Some msg) (sent ++ [(r, msg)]) ltac:(lia) ltac:(lia))
      as (Hend & Hi' & Hg & Hlen & Hpre & Hnew).
    split; [assumption|]. split; [lia|]. split; [assumption|].
    rewrite length_app in Hlen, Hpre, Hnew. cbn [length] in Hlen, Hpre, Hnew.
    split; [lia|]. split.
    + intros j Hj. rewrite Hpre by lia. now apply lookup_app_l.
    + intros [|j] m Hm.
      * injection Hm as <-. exists r. rewrite Z.add_0_r. split; [assumption|].
        rewrite Nat.add_0_r, Hpre by lia. now rewrite lookup_app_r, Nat.sub_diag by lia.
      * destruct (Hnew j m Hm) as (r' & Hr' & Hd). exists r'.
        replace (i + 1 + Z.of_nat (S j)) with (i + 1 + 1 + Z.of_nat j) by lia.
        split; [assumption|].
        now replace (length sent + S j)%nat with (length sent + 1 + j)%nat by lia.
Qed.

End Fairness.

(** X16. Round-robin: while every send goes through, the consume loop
    hands message number [j] (counting from 0) of those arriving to
    [receivers[(j + 1) mod len(receivers)]], so consecutive messages go to
    consecutive receivers in turn; it ends when the channel is closed, with
    every message dispatched and the group unchanged. *)
Theorem consumeLoop_round_robin (c : broker.ConsumerGroup) (lastConsumed : Offset)
    (inCh : list Message) :
  broker.receivers c <> [] ->
  Z.of_nat (length inCh) <= max_int64 ->
  let res := fst (broker.consumeLoop c lastConsumed inCh
                    (replicate (length inCh) broker.MsgSent)) in
  broker.ending res = broker.ChannelClosed /\
  broker.lr_group res = c /\
  length (broker.dispatched res) = length inCh /\
  forall (j : nat) m, inCh !! j = Some m ->
    exists r,
      broker.receivers c
        !! Z.to_nat ((Z.of_nat j + 1) mod Z.of_nat (length (broker.receivers c))) = Some r /\
      broker.dispatched res !! j = Some (r, m).
Proof.
  intros Hne Hmax. unfold broker.consumeLoop. cbn [fst].
  destruct (dispatchLoop_all_sent c Hne inCh 0 None [] ltac:(lia) ltac:(lia))
    as (Hend & _ & Hg & Hlen & _ & Hnew).
  cbn zeta in *. split; [assumption|]. split; [assumption|]. split; [exact Hlen|].
  - intros j m Hm. destruct (Hnew j m Hm) as (r & Hr & Hd).
    exists r. split; [|exact Hd].
    destruct (pick_lookup (0 + 1 + Z.of_nat j) (broker.receivers c) Hne ltac:(lia))
      as [Hpick _].
    rewrite Hpick in Hr. now replace (Z.of_nat j + 1) with (0 + 1 + Z.of_nat j) by lia.
Qed.

Lemma consumeLoop_round_robin_witness :
  let res := fst (broker.consumeLoop (group_of [alice; bob]) 0%N
                    [sample_message 7%N 0; sample_message 8%N 0; sample_message 9%N 0]
                    (replicate 3 broker.MsgSent)) in
  broker.ending res = broker.ChannelClosed /\
  broker.lr_group res = group_of [alice; bob] /\
  length (broker.dispatched res) = 3%nat /\
  forall (j : nat) m,
    [sample_message 7%N 0; sample_message 8%N 0; sample_message 9%N 0] !! j = Some m ->
    exists r,
      [alice; bob] !! Z.to_nat ((Z.of_nat j + 1) mod 2) = Some r /\
      broker.dispatched res !! j = Some (r, m).
Proof.
  apply (consumeLoop_round_robin (group_of [alice; bob]) 0%N
           [sample_message 7%N 0; sample_message 8%N 0; sample_message 9%N 0]).
  - discriminate.
  - vm_compute. discriminate.
Defined.

(** X17. Whatever the receivers do, the consume loop hands messages out
    in the order they arrive, each at most once and none skipped: what it
    has dispatched is always an initial stretch of what arrived, and all
    of it when the loop ends because the channel was closed. The loop
    never indexes out of range. *)
Theorem consumeLoop_dispatches_in_order (c : broker.ConsumerGroup)
    (lastConsumed : Offset) (inCh : list Message) (sched : list broker.SelectCase) :
  NoDup (broker.name <$> broker.receivers c) ->
  broker.receivers c <> [] ->
  Z.of_nat (length inCh + length (broker.receivers c)) <= max_int64 ->
  let res := fst (broker.consumeLoop c lastConsumed inCh sched) in
  (snd <$> broker.dispatched res) `prefix_of` inCh /\
  (broker.ending res = broker.ChannelClosed -> snd <$> broker.dispatched res = inCh) /\
  broker.ending res <> broker.Panics.
Proof.
  intros Hnd Hne Hmax. unfold broker.consumeLoop. cbn [fst].
  pose proof (dispatchLoop_outcome inCh 0 c None sched [] Hnd Hne ltac:(lia) ltac:(lia))
    as H.
  cbn zeta in H.
  destruct (broker.ending (broker.dispatchLoop 0 c None inCh sched [])) eqn:Hend;
    try contradiction.
  - destruct H as [_ Hd]. simpl in Hd. rewrite Hd.
    split; [reflexivity|]. split; [reflexivity | discriminate].
  - destruct H as (before & pending & after & -> & _ & Hd). simpl in Hd. rewrite Hd.
    split; [now apply prefix_app_r|]. split; discriminate.
  - destruct H as (before & pending & after & -> & _ & Hd). simpl in Hd. rewrite Hd.
    split; [now apply prefix_app_r|]. split; discriminate.
Qed.

Lemma consumeLoop_dispatches_in_order_witness :
  let res := fst (broker.consumeLoop (group_of [alice; bob]) 0%N
                    [sample_message 7%N 0; sample_message 8%N 0]
                    [broker.DoneFired; broker.MsgSent; broker.DoneFired]) in
  (snd <$> broker.dispatched res)
    `prefix_of` [sample_message 7%N 0; sample_message 8%N 0] /\
  (broker.ending res = broker.ChannelClosed ->
   snd <$> broker.dispatched res = [sample_message 7%N 0; sample_message 8%N 0]) /\
  broker.ending res <> broker.Panics.
Proof.
  apply (consumeLoop_dispatches_in_order (group_of [alice; bob]) 0%N
           [sample_message 7%N 0; sample_message 8%N 0]
           [broker.DoneFired; broker.MsgSent; broker.DoneFired]).
  - apply (bool_decide_unpack _). vm_compute. exact I.
  - discriminate.
  - vm_compute. discriminate.
Defined.

Section Attached.

Import broker.




End Attached.


(** ** The recovery scan *)

Section RecoveryScan.

Import broker.

Variable sv : Services.
Variable c : ConsumerGroup.
Variable lastCommited : Offset.
Variable now : time.Time.

Lemma redeliver_effects m markedMsg state :
  Forall (fun e => isCallCommit e = false /\ isCommitting e = false)
    (fst (redeliver sv c m markedMsg state)).
Proof.
  unfold redeliver. destruct (decide (Kind state = MarkKind_Unknown)).
  - simpl. repeat constructor.
  - destruct markedMsg as [mm|]; [|simpl; repeat constructor].
    destruct (Marshal sv (countDelivery state)); simpl; repeat constructor.
Qed.

Lemma advanceCommit_effects v i state :
  let '(effs, cm) := advanceCommit c lastCommited v i state in
  Forall (fun e => isCommitting e = true) effs /\
  (length (filter (fun e => isCallCommit e = true) effs) <= 1)%nat /\
  (committed v = true -> cm = true /\ effs = []) /\
  (cm = false -> committed v = false /\
                 length (filter (fun e => isCallCommit e = true) effs) = 0%nat).
Proof.
  unfold advanceCommit. destruct (committed v) eqn:Hc.
  - repeat split; auto; discriminate.
  - destruct (lastMessage v) as [last|]; [|repeat split; auto; discriminate].
    destruct (decide (Kind state ≠ MarkKind_Acknowledged)).
    + destruct (negb (Offset_Equal (Offset_ last) lastCommited)); simpl;
        repeat split; auto; try discriminate; repeat constructor.
    + destruct (go_rem i 10000 =? 0); simpl; repeat split; auto; try discriminate;
        repeat constructor.
Qed.

Lemma commitCalls_app a b : commitCalls (a ++ b) = (commitCalls a + commitCalls b)%nat.
Proof. unfold commitCalls. now rewrite filter_app, length_app. Qed.

Lemma commitCalls_redeliver m markedMsg state :
  commitCalls (fst (redeliver sv c m markedMsg state)) = 0%nat.
Proof.
  unfold commitCalls.
  pose proof (redeliver_effects m markedMsg state) as H.
  induction H as [|e l [He _] _ IH]; [reflexivity|].
  rewrite filter_cons_False by (rewrite He; discriminate). exact IH.
Qed.

(** The guard [committed]: once it is set the callback issues no commit
    call, and while it stays unset none has been issued. *)
Lemma recoveryCallback_commits v m :
  let '(v', effs, _) := recoveryCallback sv c lastCommited now v m in
  (commitCalls effs <= 1)%nat /\
  (committed v = true -> committed v' = true /\ commitCalls effs = 0%nat) /\
  (committed v' = false -> committed v = false /\ commitCalls effs = 0%nat).
Proof.
  unfold recoveryCallback.
  destruct (Offset_Equal (Offset_ m) lastCommited); [simpl; repeat split; auto|].
  destruct (GetMarkStateMessage sv (getMarkRequest c (Offset_ m))) as [markedMsg err].
  destruct (match err with
            | Some e => if negb (isNotFound e) then Some e else None
            | None => None
            end); [simpl; repeat split; auto|].
  destruct (match markedMsg with
            | Some mm => Unmarshal sv (Value mm)
            | None => inr MarkState_zero
            end) as [e|state]; [simpl; repeat split; auto|].
  pose proof (advanceCommit_effects
                (mkScanVars (lastMessage v) (committed v) (wrap_int64 (sv_i v + 1)))
                (wrap_int64 (sv_i v + 1)) state) as Hadv.
  destruct (advanceCommit c lastCommited _ _ state) as [commits cm].
  destruct Hadv as (_ & Hle & Hset & Hunset). fold (commitCalls commits) in Hle, Hunset.
  simpl in Hset, Hunset.
  destruct (shouldRedeliver now m state).
  - pose proof (commitCalls_redeliver m markedMsg state) as Hred.
    destruct (redeliver sv c m markedMsg state) as [effs err']. simpl in Hred |- *.
    rewrite commitCalls_app, Hred, Nat.add_0_r.
    split; [assumption|]. split.
    + intros Hv. destruct (Hset Hv) as [-> ->]. auto.
    + intros Hcm. apply Hunset in Hcm. exact Hcm.
  - simpl. split; [assumption|]. split.
    + intros Hv. destruct (Hset Hv) as [-> ->]. auto.
    + intros Hcm. apply Hunset in Hcm. exact Hcm.
Qed.

Lemma scanMessages_commits msgs : forall v,
  let '(v', effs, _) := scanMessages sv c lastCommited now v msgs in
  (commitCalls effs <= 1)%nat /\
  (committed v = true -> committed v' = true /\ commitCalls effs = 0%nat) /\
  (committed v' = false -> committed v = false /\ commitCalls effs = 0%nat).
Proof.
  induction msgs as [|m rest IH]; intros v; cbn [scanMessages].
  - simpl. repeat split; auto.
  - pose proof (recoveryCallback_commits v m) as Hcb.
    destruct (recoveryCallback sv c lastCommited now v m) as [[v1 effs1] [e|]];
      [exact Hcb|].
    specialize (IH v1).
    destruct (scanMessages sv c lastCommited now v1 rest) as [[v2 effs2] err].
    destruct Hcb as (Hle1 & Hset1 & Hun1). destruct IH as (Hle2 & Hset2 & Hun2).
    rewrite commitCalls_app. split; [|split].
    + destruct (committed v1) eqn:Hc1.
      * destruct (Hset2 eq_refl) as [_ ->]. lia.
      * destruct (Hun1 eq_refl) as [_ ->]. lia.
    + intros Hv. destruct (Hset1 Hv) as [Hc1 ->]. destruct (Hset2 Hc1) as [Hc2 ->]. auto.
    + intros Hc2. destruct (Hun2 Hc2) as [Hc1 ->]. destruct (Hun1 Hc1) as [Hc ->]. auto.
Qed.

End RecoveryScan.

(** X19. Within one recovery scan the commit call is made at most once:
    whatever the messages and their marks, and whether the scan ends well
    or on an error, its calls hold at most one synchronous [Commit]. *)
Theorem recoveryScan_commits_at_most_once (sv : broker.Services)
    (c : broker.ConsumerGroup) (lastCommited : Offset) (now : time.Time)
    (msgs : list Message) :
  (commitCalls (fst (broker.recoveryScan sv c lastCommited now msgs)) <= 1)%nat.
Proof.
  unfold broker.recoveryScan.
  pose proof (scanMessages_commits sv c lastCommited now msgs
                (broker.mkScanVars None false 0)) as H.
  destruct (broker.scanMessages sv c lastCommited now _ msgs) as [[v effs] [e|]];
    destruct H as (Hle & _ & Hun); [exact Hle|].
  destruct (broker.committed v) eqn:Hc; [exact Hle|].
  destruct (broker.lastMessage v); [|exact Hle].
  simpl. rewrite commitCalls_app. destruct (Hun eq_refl) as [_ ->]. reflexivity.
Qed.

(** X20. A message whose mark is Acknowledged or Commited is never
    delivered by the recovery scan, and no mark is written for it: the
    callback goes through without error and makes at most commit calls. *)
Theorem recovery_skips_settled (sv : broker.Services) (c : broker.ConsumerGroup)
    (lastCommited : Offset) (now : time.Time) (v : broker.ScanVars)
    (m mm : Message) (state : MarkState) :
  broker.GetMarkStateMessage sv (broker.getMarkRequest c (Offset_ m)) = (Some mm, None) ->
  broker.Unmarshal sv (Value mm) = inr state ->
  Kind state = MarkKind_Acknowledged \/ Kind state = MarkKind_Commited ->
  let '(_, effs, err) := broker.recoveryCallback sv c lastCommited now v m in
  err = None /\ Forall (fun e => isCommitting e = true) effs.
Proof.
  intros Hget Hun Hk. unfold broker.recoveryCallback.
  destruct (Offset_Equal (Offset_ m) lastCommited); [split; [reflexivity | constructor]|].
  rewrite Hget, Hun.
  pose proof (advanceCommit_effects c lastCommited
                (broker.mkScanVars (broker.lastMessage v) (broker.committed v)
                   (wrap_int64 (broker.sv_i v + 1)))
                (wrap_int64 (broker.sv_i v + 1)) state) as Hadv.
  destruct (broker.advanceCommit c lastCommited _ _ state) as [commits cm].
  destruct Hadv as (Hall & _).
  assert (broker.shouldRedeliver now m state = false) as ->
    by (unfold broker.shouldRedeliver; destruct Hk as [-> | ->]; reflexivity).
  split; [reflexivity | assumption].
Qed.

Lemma recovery_skips_settled_witness :
  let '(_, effs, err) :=
    broker.recoveryCallback
      (sample_services (Some (mkMarkState MarkKind_Acknowledged 5))) sample_group 0%N
      100000000000 (broker.mkScanVars None false 0) (sample_message 7%N 0) in
  err = None /\ Forall (fun e => isCommitting e = true) effs.
Proof.
  apply (recovery_skips_settled
           (sample_services (Some (mkMarkState MarkKind_Acknowledged 5))) sample_group 0%N
           100000000000 (broker.mkScanVars None false 0) (sample_message 7%N 0)
           (sample_mark (mkMarkState MarkKind_Acknowledged 5))
           (mkMarkState MarkKind_Acknowledged 5)); try reflexivity.
  now left.
Defined.

(** X21. How the recovery scan takes a failed mark lookup. A NotFound
    status is no failure: the message counts as never delivered, so once
    its [RedeliveryTimeout] has passed it is delivered and marked
    (Consumed, 1), and before that it is left alone. Any other error ends
    the callback with that error before anything is delivered, committed
    or written. *)
Theorem recovery_lookup_failure (sv : broker.Services) (c : broker.ConsumerGroup)
    (lastCommited : Offset) (now : time.Time) (v : broker.ScanVars) (m : Message)
    (markedMsg : option Message) (e : broker.error) :
  Offset_Equal (Offset_ m) lastCommited = false ->
  broker.GetMarkStateMessage sv (broker.getMarkRequest c (Offset_ m)) = (markedMsg, Some e) ->
  let '(_, effs, err) := broker.recoveryCallback sv c lastCommited now v m in
  (broker.isNotFound e = false -> effs = [] /\ err = Some e) /\
  (broker.isNotFound e = true -> markedMsg = None ->
   (ProducedAt m + broker.RedeliveryTimeout < now ->
    exists commits,
      Forall (fun e => isCommitting e = true) commits /\
      effs = commits ++
             [broker.Deliver m;
              broker.CallMark
                (broker.markRequest c (Offset_ m) (Some (mkMarkState MarkKind_Consumed 1)))] /\
      err = broker.Mark sv
              (broker.markRequest c (Offset_ m) (Some (mkMarkState MarkKind_Consumed 1)))) /\
   (now <= ProducedAt m + broker.RedeliveryTimeout ->
    Forall (fun e => isCommitting e = true) effs /\ err = None)).
Proof.
  intros Hoff Hget. unfold broker.recoveryCallback. rewrite Hoff, Hget.
  destruct (broker.isNotFound e) eqn:Hnf; simpl.
  - destruct markedMsg as [mm|].
    + destruct (broker.Unmarshal sv (Value mm)) as [e'|state].
      * split; [discriminate|]. intros _ Habs. discriminate.
      * destruct (broker.advanceCommit c lastCommited _ _ state) as [commits cm].
        destruct (broker.shouldRedeliver now m state);
          [destruct (broker.redeliver sv c m (Some mm) state)|];
          (split; [discriminate | intros _ Habs; discriminate]).
    + pose proof (advanceCommit_effects c lastCommited
                    (broker.mkScanVars (broker.lastMessage v) (broker.committed v)
                       (wrap_int64 (broker.sv_i v + 1)))
                    (wrap_int64 (broker.sv_i v + 1)) MarkState_zero) as Hadv.
      destruct (broker.advanceCommit c lastCommited _ _ MarkState_zero) as [commits cm].
      destruct Hadv as (Hall & _).
      unfold broker.shouldRedeliver, time.Before, time.Add. simpl.
      destruct (Z.ltb_spec (ProducedAt m + broker.RedeliveryTimeout) now) as [Hlt|Hge].
      * simpl. split; [discriminate|]. intros _ _. split; [|lia].
        intros _. exists commits. auto.
      * split; [discriminate|]. intros _ _. split; [lia|]. auto.
  - split; [auto|discriminate].
Qed.

(** No mark is stored yet for the message; it was produced at instant 0
    and is looked at 25 seconds later. *)
Lemma recovery_lookup_failure_witness :
  let '(_, effs, err) :=
    broker.recoveryCallback (sample_services None) sample_group 0%N 25000000000
      (broker.mkScanVars None false 0) (sample_message 7%N 0) in
  exists commits,
    Forall (fun e => isCommitting e = true) commits /\
    effs = commits ++
           [broker.Deliver (sample_message 7%N 0);
            broker.CallMark
              (broker.markRequest sample_group 7%N (Some (mkMarkState MarkKind_Consumed 1)))] /\
    err = None.
Proof.
  pose proof (recovery_lookup_failure (sample_services None) sample_group 0%N 25000000000
                (broker.mkScanVars None false 0) (sample_message 7%N 0) None
                (broker.ErrStatus broker.codes_NotFound "not found") eq_refl eq_refl) as H.
  destruct (broker.recoveryCallback _ _ _ _ _ _) as [[v' effs] err].
  destruct H as [_ H]. destruct (H eq_refl eq_refl) as [Hdue _].
  apply Hdue. vm_compute. reflexivity.
Defined.

Section AcknowledgedWindow.

Import broker.

Variable sv : Services.
Variable c : ConsumerGroup.
Variable lastCommited : Offset.
Variable now : time.Time.

Lemma scanMessages_acknowledged msgs : forall v,
  allAcknowledged sv c msgs -> committed v = false ->
  exists v' n,
    scanMessages sv c lastCommited now v msgs = (v', replicate n GoCommit, None) /\
    committed v' = false /\
    lastMessage v' = from_option Some (lastMessage v) (last msgs).
Proof.
  induction msgs as [|m rest IH]; intros v Hall Hc.
  - exists v, 0%nat. repeat split; auto.
  - apply Forall_cons in Hall as [(mm & state & Hget & Hun & Hk) Hall].
    cbn [scanMessages].
    assert (exists v1 n1,
              recoveryCallback sv c lastCommited now v m = (v1, replicate n1 GoCommit, None) /\
              committed v1 = false /\ lastMessage v1 = Some m) as (v1 & n1 & Hcb & Hc1 & Hl1).
    { unfold recoveryCallback.
      destruct (Offset_Equal (Offset_ m) lastCommited).
      - eexists _, 0%nat. repeat split; auto.
      - rewrite Hget, Hun. unfold advanceCommit. cbn [committed lastMessage]. rewrite Hc.
        assert (shouldRedeliver now m state = false) as ->
          by (unfold shouldRedeliver; now rewrite Hk).
        destruct (lastMessage v) as [last|].
        + rewrite decide_False by (intros Hne; now apply Hne).
          destruct (go_rem (wrap_int64 (sv_i v + 1)) 10000 =? 0).
          * eexists _, 1%nat. repeat split; auto.
          * eexists _, 0%nat. repeat split; auto.
        + eexists _, 0%nat. repeat split; auto. }
    rewrite Hcb. destruct (IH v1 Hall Hc1) as (v2 & n2 & -> & Hc2 & Hl2).
    exists v2, (n1 + n2)%nat. split; [now rewrite replicate_add|]. split; [assumption|].
    rewrite Hl2, Hl1. destruct rest as [|x xs]; [reflexivity|].
    change (last (m :: x :: xs)) with (last (x :: xs)).
    rewrite last_cons. now destruct (last xs).
Qed.

End AcknowledgedWindow.

(** X22. Over a window in which every message is marked Acknowledged the
    recovery scan delivers nothing and writes no mark; it ends without
    error by committing the offset of the window's last message, after at
    most some of the periodic commits. *)
Theorem recoveryScan_acknowledged_window (sv : broker.Services)
    (c : broker.ConsumerGroup) (lastCommited : Offset) (now : time.Time)
    (msgs : list Message) (last_msg : Message) :
  allAcknowledged sv c msgs ->
  last msgs = Some last_msg ->
  exists n,
    broker.recoveryScan sv c lastCommited now msgs =
    (replicate n broker.GoCommit ++ [broker.commit c last_msg], None).
Proof.
  intros Hall Hlast. unfold broker.recoveryScan.
  destruct (scanMessages_acknowledged sv c lastCommited now msgs
              (broker.mkScanVars None false 0) Hall eq_refl) as (v' & n & -> & Hc & Hl).
  rewrite Hc, Hl, Hlast. simpl. now exists n.
Qed.

Lemma recoveryScan_acknowledged_window_witness :
  exists n,
    broker.recoveryScan (sample_services (Some (mkMarkState MarkKind_Acknowledged 5)))
      sample_group 0%N 100000000000 [sample_message 7%N 0; sample_message 8%N 0] =
    (replicate n broker.GoCommit ++ [broker.commit sample_group (sample_message 8%N 0)],
     None).
Proof.
  apply (recoveryScan_acknowledged_window
           (sample_services (Some (mkMarkState MarkKind_Acknowledged 5)))
           sample_group 0%N 100000000000 [sample_message 7%N 0; sample_message 8%N 0]
           (sample_message 8%N 0)); [|reflexivity].
  repeat constructor; eexists _, _; repeat split; reflexivity.
Defined.

(** ** The earlier revision of the dispatcher *)

Section EarlierDispatcher.

Import broker.

Variable isAcknoweldged : Offset -> error + bool.

Lemma broker0_dispatchLoop_unacknowledged inCh : forall i c sched sent,
  exists l,
    snd <$> dispatched (broker0.dispatchLoop isAcknoweldged i c inCh sched sent) =
    (snd <$> sent) ++ l /\
    l `sublist_of` filter (fun m => isAcknoweldged (Offset_ m) = inr false)
                     (untilError isAcknoweldged inCh).
Proof.
  induction inCh as [|m rest IH]; intros i c sched sent; cbn [broker0.dispatchLoop untilError].
  - exists []. simpl. now rewrite app_nil_r.
  - destruct (isAcknoweldged (Offset_ m)) as [e|[|]] eqn:Hack.
    + exists []. simpl. rewrite app_nil_r. split; [reflexivity | apply sublist_nil_l].
    + rewrite filter_cons_False by (rewrite Hack; discriminate). apply IH.
    + rewrite filter_cons_True by assumption.
      destruct (broker0.selectreceiver i c sched) as [i' c' r rest'|i' c' rest'|i' c' rest'|i' c'|];
        simpl dispatched;
        try (exists []; rewrite app_nil_r; split; [reflexivity | apply sublist_nil_l]).
      * destruct (IH (wrap_int64 (i' + 1)) c' rest' (sent ++ [(r, m)])) as (l & -> & Hl).
        exists (m :: l). rewrite fmap_app, <- app_assoc. split; [reflexivity|].
        now apply sublist_skip.
      * destruct (IH (wrap_int64 (i' + 1)) c' rest' sent) as (l & -> & Hl).
        exists l. split; [reflexivity | now apply sublist_cons].
Qed.

Lemma broker0_selectreceiver_outcome sched : forall i c,
  NoDup (name <$> receivers c) -> receivers c <> [] -> 0 <= i ->
  match broker0.selectreceiver i c sched with
  | Delivered i' c' r _ =>
      i' = i /\ NoDup (name <$> receivers c') /\ receivers c' <> []
  | BreakLoop i' _ _ | Blocked i' _ => i' = i
  | FellThrough _ _ _ | Panicked => False
  end.
Proof.
  induction sched as [|ev sched IH]; intros i c Hnd Hne Hi; cbn [broker0.selectreceiver];
    destruct (pick_lookup i (receivers c) Hne Hi) as [_ [r Hr]]; rewrite Hr.
  - reflexivity.
  - destruct ev; [|auto].
    destruct (removeConsumer_member c r Hnd (pick_elem _ _ _ Hr))
      as (c' & -> & _ & _ & _ & Hnd').
    destruct (decide (length (receivers c') = 0%nat)) as [|Hnz]; [reflexivity|].
    apply IH; auto. now destruct (receivers c').
Qed.

Lemma broker0_dispatchLoop_counter inCh : forall i c sched sent,
  NoDup (name <$> receivers c) -> receivers c <> [] ->
  0 <= i -> i + Z.of_nat (length inCh) <= max_int64 ->
  let res := broker0.dispatchLoop isAcknoweldged i c inCh sched sent in
  ending res <> Panics /\
  Z.of_nat (length (dispatched res)) = Z.of_nat (length sent) + (lr_i res - i).
Proof.
  induction inCh as [|m rest IH]; intros i c sched sent Hnd Hne Hi Hmax; cbn zeta;
    cbn [broker0.dispatchLoop].
  - simpl. split; [discriminate | lia].
  - cbn [length] in Hmax.
    destruct (isAcknoweldged (Offset_ m)) as [e|[|]].
    + simpl. split; [discriminate | lia].
    + apply IH; auto. lia.
    + pose proof (broker0_selectreceiver_outcome sched i c Hnd Hne Hi) as Hsel.
      destruct (broker0.selectreceiver i c sched) as [i' c' r rest'|?|i' c' rest'|i' c'|];
        try contradiction.
      * destruct Hsel as (-> & Hnd' & Hne').
        rewrite wrap_int64_small by (unfold max_int64 in *; lia).
        destruct (IH (i + 1) c' rest' (sent ++ [(r, m)]) Hnd' Hne' ltac:(lia) ltac:(lia))
          as [Hp Hcount].
        split; [assumption|]. rewrite Hcount, length_app. simpl. lia.
      * subst i'. simpl. split; [discriminate | lia].
      * subst i'. simpl. split; [discriminate | lia].
Qed.

End EarlierDispatcher.

(** X23. In the earlier revision of the consume loop only messages that
    are not yet acknowledged reach a receiver: what the loop dispatches
    is, in arrival order and each at most once, drawn from the messages
    whose lookup answered "not acknowledged", and from none that arrived
    at or after the first message whose lookup failed. *)
Theorem broker0_dispatches_unacknowledged
    (isAcknoweldged : Offset -> broker.error + bool) (c : broker.ConsumerGroup)
    (inCh : list Message) (sched : list broker.SelectCase) :
  (snd <$> broker.dispatched (broker0.dispatchLoop isAcknoweldged 0 c inCh sched []))
  `sublist_of`
  filter (fun m => isAcknoweldged (Offset_ m) = inr false)
    (untilError isAcknoweldged inCh).
Proof.
  destruct (broker0_dispatchLoop_unacknowledged isAcknoweldged inCh 0 c sched [])
    as (l & -> & Hl).
  exact Hl.
Qed.

(** X24. In the earlier revision the round-robin counter counts the
    messages dispatched: however many receivers had to be removed on the
    way, when the loop stops the counter has advanced by exactly the
    number of messages handed to a receiver, and the loop has not indexed
    out of range. *)
Theorem broker0_counter_counts_dispatches
    (isAcknoweldged : Offset -> broker.error + bool) (c : broker.ConsumerGroup)
    (inCh : list Message) (sched : list broker.SelectCase) :
  NoDup (broker.name <$> broker.receivers c) ->
  broker.receivers c <> [] ->
  Z.of_nat (length inCh) <= max_int64 ->
  let res := broker0.dispatchLoop isAcknoweldged 0 c inCh sched [] in
  broker.ending res <> broker.Panics /\
  broker.lr_i res = Z.of_nat (length (broker.dispatched res)).
Proof.
  intros Hnd Hne Hmax.
  destruct (broker0_dispatchLoop_counter isAcknoweldged inCh 0 c sched [] Hnd Hne
              ltac:(lia) ltac:(lia)) as [Hp Hcount].
  cbn zeta. split; [assumption|]. simpl in Hcount. lia.
Qed.

Lemma broker0_counter_counts_dispatches_witness :
  let res := broker0.dispatchLoop (fun _ => inr false) 0 (group_of [alice; bob; carol])
               [sample_message 7%N 0; sample_message 8%N 0]
               [broker.DoneFired; broker.MsgSent; broker.MsgSent] [] in
  broker.ending res <> broker.Panics /\
  broker.lr_i res = Z.of_nat (length (broker.dispatched res)).
Proof.
  apply (broker0_counter_counts_dispatches (fun _ => inr false)
           (group_of [alice; bob; carol])
           [sample_message 7%N 0; sample_message 8%N 0]
           [broker.DoneFired; broker.MsgSent; broker.MsgSent]).
  - apply (bool_decide_unpack _). vm_compute. exact I.
  - discriminate.
  - vm_compute. discriminate.
Defined.

(** ** The produce path *)

(** X25. [Produce] writes to one place at most: whenever it answers with
    an error the broker is exactly as before, and whenever a partition
    log differs afterwards it is the log of the partition the request
    settled on, on a node that is that partition's leader; every other log
    is untouched. *)
Theorem Produce_touches_one_log (b : broker.Broker) (req : ProduceMessageRequest) :
  (forall e, fst (broker.Produce b req) = inl e -> snd (broker.Produce b req) = b) /\
  (forall key,
     broker.logs (snd (broker.Produce b req)) !! key <> broker.logs b !! key ->
     exists t p leader,
       broker.getTopic b (pr_Topic req) = Some t /\
       chosenPartition t req = Some p /\
       key = (pr_Topic req, topic.Id p) /\
       broker.getPartitionLeader b (pr_Topic req) (topic.Id p) = Some leader /\
       broker.NodeName leader = broker.Name b).
Proof.
  destruct (decide (pr_Messages req = [])) as [Hnil|Hne].
  - rewrite (Produce_empty b req Hnil). simpl. split; [reflexivity | congruence].
  - rewrite (Produce_nonempty b req Hne).
    destruct (broker.getTopic b (pr_Topic req)) as [t|];
      [|simpl; split; [reflexivity | congruence]].
    destruct (chosenPartition t req) as [p|] eqn:Hp;
      [|simpl; split; [reflexivity | congruence]].
    destruct (broker.getPartitionLeader b (pr_Topic req) (topic.Id p)) as [leader|] eqn:Hl;
      [|simpl; split; [reflexivity | congruence]].
    destruct (decide (broker.NodeName leader ≠ broker.Name b)) as [|Hself];
      [simpl; split; [reflexivity | congruence]|].
    destruct (topic.BatchPutMessages _ _ _) as [cause|[log' msgs]];
      [simpl; split; [reflexivity | congruence]|].
    simpl. split; [discriminate|].
    intros key Hkey. exists t, p, leader.
    destruct (decide ((pr_Topic req, topic.Id p) = key)) as [<-|Hother].
    + repeat split; auto.
      destruct (decide (broker.NodeName leader = broker.Name b)) as [Heq|Hneq];
        [exact Heq | contradiction].
    + rewrite lookup_insert_ne in Hkey by assumption. congruence.
Qed.

(** The sample broker, leader of "p0", appends the two sample messages:
    the log that differs afterwards is the log of that partition of
    "orders". A request without messages is refused and leaves the broker
    as it was. *)
Lemma Produce_touches_one_log_witness :
  (exists t p leader,
     broker.getTopic (sample_broker (sample_node "n1" (broker.Failed 14 "unused")))
       "orders" = Some t /\
     chosenPartition t sample_request = Some p /\
     ("orders", "p0") = (pr_Topic sample_request, topic.Id p) /\
     broker.getPartitionLeader
       (sample_broker (sample_node "n1" (broker.Failed 14 "unused")))
       "orders" (topic.Id p) = Some leader /\
     broker.NodeName leader = "n1") /\
  snd (broker.Produce (sample_broker (sample_node "n1" (broker.Failed 14 "unused")))
         (mkProduceMessageRequest "orders" "p0" [])) =
  sample_broker (sample_node "n1" (broker.Failed 14 "unused")).
Proof.
  split.
  - apply (proj2 (Produce_touches_one_log
                    (sample_broker (sample_node "n1" (broker.Failed 14 "unused")))
                    sample_request) ("orders", "p0")).
    vm_compute. discriminate.
  - apply (proj1 (Produce_touches_one_log
                    (sample_broker (sample_node "n1" (broker.Failed 14 "unused")))
                    (mkProduceMessageRequest "orders" "p0" []))
             broker.ErrNoMessageToProduce).
    reflexivity.
Defined.


